(** * Dicom.Jpeg.JpegHelper: bit depth of a JPEG frame from its marker stream

    Shallow embedding of [src/Dicom.Jpeg/JpegHelper.h]:
    - [ScanJpegForBitDepthInternal], the marker scanner (lines 33-128);
    - [ScanHeaderForBitDepth], the public entry point that falls back to the
      IJG based detector when the scanner throws (lines 20-29).

    The byte cursor is a [MemoryStream]: an immutable byte buffer and a
    mutable [Position].  The scanner is written in a small state-and-exception
    monad over that cursor; every cursor operation also records the position
    it leaves the cursor at, so that the path of the cursor is observable. *)

From Stdlib Require Import String ZArith List Lia Bool Sorted.
From Stdlib.Strings Require Import Byte.
Import ListNotations.
Open Scope Z_scope.

(** ** Data model *)

(** Modelled from the spec: the seekable byte cursor the scanner consumes
    (System.IO.MemoryStream read through Dicom.IO.EndianBinaryReader, neither
    under src/): a finite byte sequence and a current read position. *)
Record MemoryStream : Type := mkStream {
  buffer : list byte;
  Position : Z
}.

(** [ms->Length] *)
Definition Length (ms : MemoryStream) : Z := Z.of_nat (length (buffer ms)).

Definition set_Position (ms : MemoryStream) (p : Z) : MemoryStream :=
  mkStream (buffer ms) p.

(** A cursor on [bs] that has not been read yet. *)
Definition fresh (bs : list byte) : MemoryStream := mkStream bs 0.

(** Modelled from the spec: the container types of Dicom.Data (not under
    src/), as far as [pixelData->PixelDataSequence->Fragments[0]->Stream]
    needs them.  A fragment owns its stream, so a scan leaves the position of
    that stream where it stopped. *)
Record ByteBuffer : Type := mkBuffer { Stream : MemoryStream }.
Record DcmFragmentSequence : Type := mkSequence { Fragments : list ByteBuffer }.
Record DcmPixelData : Type := mkPixelData { PixelDataSequence : DcmFragmentSequence }.

(** What the code can throw.  The two [DicomCodecException]s of the scanner
    differ by their message only. *)
Inductive exn : Type :=
| DicomCodecException (message : string)
| EndOfStreamException
| IOException
| ArgumentOutOfRangeException.

Definition SyntaxError : exn :=
  DicomCodecException "Unable to determine bit depth: JPEG syntax error!".
Definition NotFoundError : exn :=
  DicomCodecException "Unable to determine bit depth: no JPEG SOF marker found!".

Inductive result (A : Type) : Type :=
| Value (a : A)
| Exception (e : exn).
Arguments Value {A} a.
Arguments Exception {A} e.

(** ** The cursor monad *)

(** A computation on the cursor: its result, the cursor it leaves, and the
    positions the cursor took, one per cursor operation, oldest first. *)
Definition M (A : Type) : Type :=
  MemoryStream -> result A * MemoryStream * list Z.

Definition ret {A : Type} (a : A) : M A := fun ms => (Value a, ms, []).

Definition throw {A : Type} (e : exn) : M A := fun ms => (Exception e, ms, []).

Definition bind {A B : Type} (m : M A) (f : A -> M B) : M B :=
  fun ms =>
    match m ms with
    | (Value a, ms1, t1) =>
        match f a ms1 with
        | (r, ms2, t2) => (r, ms2, t1 ++ t2)
        end
    | (Exception e, ms1, t1) => (Exception e, ms1, t1)
    end.

Notation "x <- c1 ;; c2" := (bind c1 (fun x => c2))
  (at level 61, c1 at next level, right associativity).
Notation "c1 ;; c2" := (bind c1 (fun _ => c2))
  (at level 61, right associativity).

(** ** Cursor operations *)

Definition byte_value (b : byte) : Z := Z.of_N (Byte.to_N b).

(** The 16-bit value of two bytes, high byte first. *)
Definition big_endian (hi lo : byte) : Z :=
  256 * byte_value hi + byte_value lo.
Arguments big_endian : simpl never.

(** The byte at offset [i] of the buffer, if there is one. *)
Definition byte_at (ms : MemoryStream) (i : Z) : option byte :=
  if i <? 0 then None else nth_error (buffer ms) (Z.to_nat i).

(** Where a read that runs into the end of the buffer leaves the cursor:
    what was left of the buffer has been consumed. *)
Definition exhausted (ms : MemoryStream) : MemoryStream :=
  set_Position ms (Z.max (Position ms) (Length ms)).

(** [br->ReadByte()] *)
Definition ReadByte : M Z := fun ms =>
  match byte_at ms (Position ms) with
  | Some b =>
      let ms' := set_Position ms (Position ms + 1) in
      (Value (byte_value b), ms', [Position ms'])
  | None => (Exception EndOfStreamException, ms, [Position ms])
  end.

(** [br->ReadUInt16()] of a big-endian reader: the first byte is the high
    one. *)
Definition ReadUInt16 : M Z := fun ms =>
  match byte_at ms (Position ms), byte_at ms (Position ms + 1) with
  | Some hi, Some lo =>
      let ms' := set_Position ms (Position ms + 2) in
      (Value (big_endian hi lo), ms', [Position ms'])
  | _, _ =>
      let ms' := exhausted ms in
      (Exception EndOfStreamException, ms', [Position ms'])
  end.

(** [ms->Seek(offset, SeekOrigin::Current)]: the offset is signed; a seek
    beyond the end is allowed, a seek before the beginning throws. *)
Definition Seek (offset : Z) : M Z := fun ms =>
  if Position ms + offset <? 0
  then (Exception IOException, ms, [Position ms])
  else
    let ms' := set_Position ms (Position ms + offset) in
    (Value (Position ms'), ms', [Position ms']).

(** ** The marker switch (lines 41-125) *)

(** The eight groups of [case] labels of the switch, in source order. *)
Inductive case_group : Type :=
| case_SOF_huffman     (* 0xffc0-0xffc3, 0xffc5-0xffc7: lines 42-50 *)
| case_JPG_extension   (* 0xffc8: lines 51-53 *)
| case_SOF_arithmetic  (* 0xffc9-0xffcb, 0xffcd-0xffcf: lines 54-61 *)
| case_DHT_DAC         (* 0xffc4, 0xffcc: lines 62-65 *)
| case_RST_SOI_EOI     (* 0xffd0-0xffd9: lines 66-76 *)
| case_segment         (* 0xffda-0xfffe: lines 77-115 *)
| case_TEM             (* 0xff01: lines 116-117 *)
| case_default.        (* lines 118-124 *)

Definition switch (marker : Z) : case_group :=
  match marker with
  | 0xffc0 | 0xffc1 | 0xffc2 | 0xffc3 | 0xffc5 | 0xffc6 | 0xffc7 =>
      case_SOF_huffman
  | 0xffc8 => case_JPG_extension
  | 0xffc9 | 0xffca | 0xffcb | 0xffcd | 0xffce | 0xffcf =>
      case_SOF_arithmetic
  | 0xffc4 | 0xffcc => case_DHT_DAC
  | 0xffd0 | 0xffd1 | 0xffd2 | 0xffd3 | 0xffd4 | 0xffd5 | 0xffd6 | 0xffd7
  | 0xffd8 | 0xffd9 => case_RST_SOI_EOI
  | 0xffda | 0xffdb | 0xffdc | 0xffdd | 0xffde | 0xffdf
  | 0xffe0 | 0xffe1 | 0xffe2 | 0xffe3 | 0xffe4 | 0xffe5 | 0xffe6 | 0xffe7
  | 0xffe8 | 0xffe9 | 0xffea | 0xffeb | 0xffec | 0xffed | 0xffee | 0xffef
  | 0xfff0 | 0xfff1 | 0xfff2 | 0xfff3 | 0xfff4 | 0xfff5 | 0xfff6 | 0xfff7
  | 0xfff8 | 0xfff9 | 0xfffa | 0xfffb | 0xfffc | 0xfffd | 0xfffe =>
      case_segment
  | 0xff01 => case_TEM
  | _ => case_default
  end.

(** How the body of a [case] leaves the loop iteration. *)
Inductive flow : Type :=
| Break
| Return (depth : Z).

(** [ms->Seek(2, SeekOrigin::Current); return (int)br->ReadByte();] *)
Definition return_precision : M flow :=
  Seek 2 ;;
  depth <- ReadByte ;;
  ret (Return depth).

(** [ms->Seek(br->ReadUInt16() - 2, SeekOrigin::Current); break;] *)
Definition skip_segment : M flow :=
  length <- ReadUInt16 ;;
  Seek (length - 2) ;;
  ret Break.

(** The [default:] body. *)
Definition reserved_check : M flow :=
  b1 <- ReadByte ;;
  b2 <- ReadByte ;;
  if (b1 =? 0xff) && (2 <? b2) && (b2 <=? 0xbf)
  then ret Break
  else throw SyntaxError.

Definition case_body (g : case_group) : M flow :=
  match g with
  | case_SOF_huffman => return_precision
  | case_JPG_extension => skip_segment
  | case_SOF_arithmetic => return_precision
  | case_DHT_DAC => skip_segment
  | case_RST_SOI_EOI => ret Break
  | case_segment => skip_segment
  | case_TEM => ret Break
  | case_default => reserved_check
  end.

(** One pass through the body of the [while] loop (lines 40-125). *)
Definition iteration : M flow :=
  marker <- ReadUInt16 ;;
  case_body (switch marker).

(** ** The scan loop (lines 38-127) *)

(** One entry per iteration: where the cursor was when the iteration began,
    and the positions it took during the iteration. *)
Definition trace : Type := list (Z * list Z).

(** What a finished scan leaves behind. *)
Definition finished : Type := result Z * MemoryStream * trace.

(** [while (ms->Position < length) { ... } throw ...], with a bound on the
    number of iterations; [None] when the bound is reached first. *)
Fixpoint while_loop (fuel : nat) (ms : MemoryStream) : option finished :=
  match fuel with
  | O => None
  | S fuel' =>
      if Position ms <? Length ms then
        match iteration ms with
        | (Value Break, ms', t) =>
            match while_loop fuel' ms' with
            | Some (r, ms'', tr) => Some (r, ms'', (Position ms, t) :: tr)
            | None => None
            end
        | (Value (Return depth), ms', t) =>
            Some (Value depth, ms', [(Position ms, t)])
        | (Exception e, ms', t) =>
            Some (Exception e, ms', [(Position ms, t)])
        end
      else Some (Exception NotFoundError, ms, [])
  end.

(** Iterations the loop can need: each one that continues moves the cursor
    towards the end of the buffer. *)
Definition iterations_bound (ms : MemoryStream) : nat :=
  S (Z.to_nat (Length ms - Position ms)).

(** The scanner on a cursor. *)
Definition scan (ms : MemoryStream) : option finished :=
  while_loop (iterations_bound ms) ms.

(** ** The two entry points *)

(** [ScanJpegForBitDepthInternal] (lines 33-128): the scan runs on the stream
    of the first fragment, from wherever that stream stands; the pixel data it
    leaves differs from the one it got in that stream's position only.
    [Fragments[0]] of an empty fragment list throws. *)
Definition ScanJpegForBitDepthInternal (pixelData : DcmPixelData)
  : option (result Z * DcmPixelData * trace) :=
  match Fragments (PixelDataSequence pixelData) with
  | [] => Some (Exception ArgumentOutOfRangeException, pixelData, [])
  | buffer :: others =>
      match scan (Stream buffer) with
      | Some (r, ms, tr) =>
          Some (r, mkPixelData (mkSequence (mkBuffer ms :: others)), tr)
      | None => None
      end
  end.

(** The bytes of every fragment, whatever the positions of their streams. *)
Definition fragment_bytes (pixelData : DcmPixelData) : list (list byte) :=
  map (fun b => buffer (Stream b)) (Fragments (PixelDataSequence pixelData)).

(** What [ScanHeaderForBitDepth] leaves behind: its result, the pixel data,
    and the pixel data handed to the fallback detector at each of its
    invocations. *)
Record resolved : Type := mkResolved {
  outcome : result Z;
  pixel_data : DcmPixelData;
  fallback_calls : list DcmPixelData
}.

Section Resolver.

(** The IJG based detector,
    [(gcnew Jpeg8Codec(JpegMode::Baseline, 0, 0))->ScanHeaderForPrecision],
    declared in JpegCodec.h: any function of the pixel data that returns a
    precision or throws. *)
Variable ScanHeaderForPrecision : DcmPixelData -> result Z * DcmPixelData.

(** [ScanHeaderForBitDepth] (lines 20-29); [catch (...)] catches whatever
    the scanner throws. *)
Definition ScanHeaderForBitDepth (pixelData : DcmPixelData)
  : option resolved :=
  match ScanJpegForBitDepthInternal pixelData with
  | Some (Value depth, pixelData', _) =>
      Some (mkResolved (Value depth) pixelData' [])
  | Some (Exception _, pixelData', _) =>
      match ScanHeaderForPrecision pixelData' with
      | (r, pixelData'') => Some (mkResolved r pixelData'' [pixelData'])
      end
  | None => None
  end.

End Resolver.

(** ** The marker taxonomy of the specification *)

Definition SOF_markers : list Z :=
  [0xffc0; 0xffc1; 0xffc2; 0xffc3; 0xffc5; 0xffc6; 0xffc7;
   0xffc9; 0xffca; 0xffcb; 0xffcd; 0xffce; 0xffcf].

(** DHT, DAC, the JPEG-extension marker, then SOS, DQT, DNL, DRI, DHP, EXP,
    APP0-APP15, JPG0-JPG13 and COM. *)
Definition length_prefixed_markers : list Z :=
  [0xffc4; 0xffcc; 0xffc8;
   0xffda; 0xffdb; 0xffdc; 0xffdd; 0xffde; 0xffdf;
   0xffe0; 0xffe1; 0xffe2; 0xffe3; 0xffe4; 0xffe5; 0xffe6; 0xffe7;
   0xffe8; 0xffe9; 0xffea; 0xffeb; 0xffec; 0xffed; 0xffee; 0xffef;
   0xfff0; 0xfff1; 0xfff2; 0xfff3; 0xfff4; 0xfff5; 0xfff6; 0xfff7;
   0xfff8; 0xfff9; 0xfffa; 0xfffb; 0xfffc; 0xfffd; 0xfffe].

(** RST0-RST7, SOI, EOI and TEM. *)
Definition zero_payload_markers : list Z :=
  [0xffd0; 0xffd1; 0xffd2; 0xffd3; 0xffd4; 0xffd5; 0xffd6; 0xffd7;
   0xffd8; 0xffd9; 0xff01].

(** Every marker value that has a [case] label of its own. *)
Definition enumerated_markers : list Z :=
  SOF_markers ++ length_prefixed_markers ++ zero_payload_markers.

Inductive category : Type :=
| SOF
| LENGTH_SKIP
| ZERO_PAYLOAD
| RESERVED_CHECK.

Definition member (m : Z) (l : list Z) : bool := existsb (Z.eqb m) l.

(** The category of a marker value by the lists above. *)
Definition category_of (marker : Z) : category :=
  if member marker SOF_markers then SOF
  else if member marker length_prefixed_markers then LENGTH_SKIP
  else if member marker zero_payload_markers then ZERO_PAYLOAD
  else RESERVED_CHECK.

(** The category a group of [case] labels implements. *)
Definition group_category (g : case_group) : category :=
  match g with
  | case_SOF_huffman | case_SOF_arithmetic => SOF
  | case_JPG_extension | case_DHT_DAC | case_segment => LENGTH_SKIP
  | case_RST_SOI_EOI | case_TEM => ZERO_PAYLOAD
  | case_default => RESERVED_CHECK
  end.

Definition category_body (c : category) : M flow :=
  match c with
  | SOF => return_precision
  | LENGTH_SKIP => skip_segment
  | ZERO_PAYLOAD => ret Break
  | RESERVED_CHECK => reserved_check
  end.

Definition category_eqb (c d : category) : bool :=
  match c, d with
  | SOF, SOF | LENGTH_SKIP, LENGTH_SKIP
  | ZERO_PAYLOAD, ZERO_PAYLOAD | RESERVED_CHECK, RESERVED_CHECK => true
  | _, _ => false
  end.

(** [f] holds of the [n] integers from [a] on. *)
Fixpoint all_from (n : nat) (a : Z) (f : Z -> bool) : bool :=
  match n with
  | O => true
  | S n' => f a && all_from n' (a + 1) f
  end.

(** [f] holds of every value of an [unsigned short]. *)
Definition all_markers (f : Z -> bool) : bool :=
  all_from (Z.to_nat 65536) 0 f.

(** The reserved-range test of the [default:] body on two byte values. *)
Definition reserved_pair (b1 b2 : Z) : bool :=
  (b1 =? 0xff) && (2 <? b2) && (b2 <=? 0xbf).

(** ** Paths of the cursor *)

(** The loop goes from the first cursor to the second through iterations
    that all end in [break]. *)
Inductive loops_to : MemoryStream -> MemoryStream -> Prop :=
| loops_here ms : loops_to ms ms
| loops_on ms ms1 ms2 t :
    Position ms < Length ms ->
    iteration ms = (Value Break, ms1, t) ->
    loops_to ms1 ms2 ->
    loops_to ms ms2.



(** ** The bodies of the switch in closed form *)

(** What [return_precision] does on a cursor that is not before the
    beginning of the buffer. *)
Definition run_return_precision : M flow := fun ms =>
  let p := Position ms in
  match byte_at ms (p + 2) with
  | Some b =>
      (Value (Return (byte_value b)), set_Position ms (p + 3), [p + 2; p + 3])
  | None =>
      (Exception EndOfStreamException, set_Position ms (p + 2), [p + 2; p + 2])
  end.

(** What [skip_segment] does on such a cursor. *)
Definition run_skip_segment : M flow := fun ms =>
  let p := Position ms in
  match byte_at ms p, byte_at ms (p + 1) with
  | Some hi, Some lo =>
      let n := big_endian hi lo in
      (Value Break, set_Position ms (p + n), [p + 2; p + n])
  | _, _ =>
      (Exception EndOfStreamException, exhausted ms, [Position (exhausted ms)])
  end.

(** What [reserved_check] does. *)
Definition run_reserved_check : M flow := fun ms =>
  let p := Position ms in
  match byte_at ms p with
  | None => (Exception EndOfStreamException, ms, [p])
  | Some b1 =>
      match byte_at ms (p + 1) with
      | None =>
          (Exception EndOfStreamException, set_Position ms (p + 1),
           [p + 1; p + 1])
      | Some b2 =>
          (if reserved_pair (byte_value b1) (byte_value b2)
           then Value Break else Exception SyntaxError,
           set_Position ms (p + 2), [p + 1; p + 2])
      end
  end.

(** What an iteration does behind a marker that has no [case] label: the
    test of the [default:] body is on the two bytes behind the marker. *)
Definition after_unlisted_marker (ms : MemoryStream)
  : result flow * MemoryStream * list Z :=
  let p := Position ms in
  match byte_at ms (p + 2) with
  | None =>
      (Exception EndOfStreamException, set_Position ms (p + 2),
       [p + 2; p + 2])
  | Some b1 =>
      match byte_at ms (p + 3) with
      | None =>
          (Exception EndOfStreamException, set_Position ms (p + 3),
           [p + 2; p + 3; p + 3])
      | Some b2 =>
          (if reserved_pair (byte_value b1) (byte_value b2)
           then Value Break else Exception SyntaxError,
           set_Position ms (p + 4), [p + 2; p + 3; p + 4])
      end
  end.

(** A finished scan, taken apart: the loop went through iterations that
    ended in [break] to a cursor [last], where it stopped in one of the three
    ways it can stop. *)
Inductive stopped (last : MemoryStream) : finished -> Prop :=
| stopped_at_end :
    Length last <= Position last ->
    stopped last (Exception NotFoundError, last, [])
| stopped_Return depth ms' t :
    Position last < Length last ->
    iteration last = (Value (Return depth), ms', t) ->
    stopped last (Value depth, ms', [(Position last, t)])
| stopped_Exception e ms' t :
    Position last < Length last ->
    iteration last = (Exception e, ms', t) ->
    stopped last (Exception e, ms', [(Position last, t)]).


(** The result of a scan, without the cursor it leaves. *)
Definition scanned (o : option (result Z * DcmPixelData * trace))
  : option (result Z) :=
  match o with
  | Some (r, _, _) => Some r
  | None => None
  end.

(** The pixel data with the stream of each fragment set back to its
    beginning. *)
Definition rewound (pixelData : DcmPixelData) : DcmPixelData :=
  mkPixelData (mkSequence
    (map (fun b => mkBuffer (fresh (buffer (Stream b))))
         (Fragments (PixelDataSequence pixelData)))).

(** A pixel data of one fragment, with its stream at position [p]. *)
Definition one_fragment (bs : list byte) (p : Z) : DcmPixelData :=
  mkPixelData (mkSequence [mkBuffer (mkStream bs p)]).


(** ** Further notions used to state properties of the scanner *)

(** The [default:] group of the switch. *)
Definition is_default (g : case_group) : bool :=
  match g with
  | case_default => true
  | _ => false
  end.

(** The 16-bit values that have no [case] label, as ranges: everything up to
    0xFF00, 0xFF02-0xFFBF, and 0xFFFF. *)
Definition unlisted_range (m : Z) : bool :=
  (m <? 0xff01) || ((0xff01 <? m) && (m <? 0xffc0)) || (m =? 0xffff).

(** The exceptions the scan loop itself can end with. *)
Definition scan_exception (e : exn) : Prop :=
  e = NotFoundError \/ e = SyntaxError \/ e = EndOfStreamException.

(** The cursor [ms] on a buffer that goes on with the bytes [extra]. *)
Definition extended (ms : MemoryStream) (extra : list byte) : MemoryStream :=
  mkStream (buffer ms ++ extra) (Position ms).

(** The cursor [ms] on a buffer that has the bytes [before] in front of it:
    every position is larger by the length of [before]. *)
Definition shifted (before : list byte) (ms : MemoryStream) : MemoryStream :=
  mkStream (before ++ buffer ms) (Z.of_nat (length before) + Position ms).

Definition shift_positions (before : list byte) (t : list Z) : list Z :=
  map (Z.add (Z.of_nat (length before))) t.

Definition shift_trace (before : list byte) (tr : trace) : trace :=
  map (fun it => (Z.of_nat (length before) + fst it,
                  shift_positions before (snd it))) tr.

Definition shift_finished (before : list byte) (out : finished) : finished :=
  match out with
  | (r, ms, tr) => (r, shifted before ms, shift_trace before tr)
  end.

(** What stands in front of the frame header in a JPEG stream: markers
    without payload, and segments with a length field and their content. *)
Inductive header_item : Type :=
| Bare (m1 m2 : byte)
| Segment (m1 m2 : byte) (hi lo : byte) (content : list byte).

Definition encode_item (it : header_item) : list byte :=
  match it with
  | Bare m1 m2 => [m1; m2]
  | Segment m1 m2 hi lo content => [m1; m2; hi; lo] ++ content
  end.

Definition encode_header (items : list header_item) : list byte :=
  flat_map encode_item items.

(** The marker of the item is one the switch knows in that role, and the
    length field of a segment counts itself and the content. *)
Definition well_formed_item (it : header_item) : Prop :=
  match it with
  | Bare m1 m2 => In (big_endian m1 m2) zero_payload_markers
  | Segment m1 m2 hi lo content =>
      In (big_endian m1 m2) length_prefixed_markers /\
      Z.of_nat (length content) = big_endian hi lo - 2
  end.

(** ** The switch agrees with the taxonomy *)

Lemma all_from_spec f n : forall a,
  all_from n a f = true -> forall m, a <= m < a + Z.of_nat n -> f m = true.
Proof.
  induction n as [|n IH]; intros a H m Hm.
  - simpl in Hm. lia.
  - simpl in H. apply andb_true_iff in H. destruct H as [Ha Hrest].
    destruct (Z.eq_dec m a) as [->|Hne]; [assumption|].
    apply (IH (a + 1)); [assumption | lia].
Qed.

Lemma all_markers_spec f :
  all_markers f = true -> forall m, 0 <= m < 65536 -> f m = true.
Proof.
  unfold all_markers. intros H m Hm.
  apply (all_from_spec f (Z.to_nat 65536) 0 H m).
  rewrite Z2Nat.id; lia.
Qed.

Lemma switch_table :
  all_markers
    (fun m => category_eqb (group_category (switch m)) (category_of m)) = true.
Proof. vm_compute. reflexivity. Qed.

Lemma category_eqb_eq c d : category_eqb c d = true -> c = d.
Proof. destruct c, d; simpl; congruence. Qed.

Lemma switch_category m :
  0 <= m < 65536 -> group_category (switch m) = category_of m.
Proof.
  intros Hm. apply category_eqb_eq.
  exact (all_markers_spec _ switch_table m Hm).
Qed.

Lemma case_body_category g : case_body g = category_body (group_category g).
Proof. destruct g; reflexivity. Qed.

Lemma member_In m l : member m l = true <-> In m l.
Proof.
  unfold member. rewrite existsb_exists. split.
  - intros [x [Hin Heq]]. apply Z.eqb_eq in Heq. now subst.
  - intros Hin. exists m. split; [assumption | apply Z.eqb_refl].
Qed.

Lemma member_not_In m l : member m l = false <-> ~ In m l.
Proof.
  rewrite <- member_In. destruct (member m l); split; intuition congruence.
Qed.

(** ** The cursor operations *)

Lemma byte_value_range b : 0 <= byte_value b <= 255.
Proof.
  unfold byte_value. pose proof (Byte.to_N_bounded b). lia.
Qed.

Lemma big_endian_range hi lo : 0 <= big_endian hi lo < 65536.
Proof.
  unfold big_endian.
  pose proof (byte_value_range hi). pose proof (byte_value_range lo). lia.
Qed.

Lemma byte_at_Some ms i b : byte_at ms i = Some b -> 0 <= i < Length ms.
Proof.
  unfold byte_at, Length. destruct (Z.ltb_spec i 0) as [Hi|Hi]; [discriminate|].
  intros H. assert (Hn : nth_error (buffer ms) (Z.to_nat i) <> None)
    by congruence.
  apply nth_error_Some in Hn. lia.
Qed.

Lemma byte_at_app_right bs rest p i :
  byte_at (mkStream (bs ++ rest) p) (Z.of_nat (length bs) + Z.of_nat i)
  = nth_error rest i.
Proof.
  unfold byte_at. simpl.
  destruct (Z.ltb_spec (Z.of_nat (length bs) + Z.of_nat i) 0); [lia|].
  replace (Z.to_nat (Z.of_nat (length bs) + Z.of_nat i))
    with (length bs + i)%nat by lia.
  rewrite nth_error_app2 by lia. f_equal. lia.
Qed.

Lemma ReadUInt16_Value ms m ms1 t :
  ReadUInt16 ms = (Value m, ms1, t) ->
  exists hi lo,
    byte_at ms (Position ms) = Some hi /\
    byte_at ms (Position ms + 1) = Some lo /\
    m = big_endian hi lo /\
    ms1 = set_Position ms (Position ms + 2) /\
    t = [Position ms + 2].
Proof.
  unfold ReadUInt16.
  destruct (byte_at ms (Position ms)) as [hi|];
    [destruct (byte_at ms (Position ms + 1)) as [lo|]|];
    simpl; intros H; inversion H; subst.
  exists hi, lo. repeat split; reflexivity.
Qed.

Lemma ReadUInt16_range ms m ms1 t :
  ReadUInt16 ms = (Value m, ms1, t) -> 0 <= m < 65536.
Proof.
  intros H. apply ReadUInt16_Value in H.
  destruct H as (hi & lo & _ & _ & -> & _). apply big_endian_range.
Qed.

(** ** The bodies of the switch, run from a cursor *)

(** Two outcomes are equal when their results agree and their positions are
    equal as integers. *)
Ltac same_outcome :=
  unfold set_Position; cbn [Position buffer app];
  repeat first [ reflexivity | lia | progress f_equal ].

Lemma return_precision_run ms :
  0 <= Position ms -> return_precision ms = run_return_precision ms.
Proof.
  intros Hp. unfold return_precision, run_return_precision, bind, Seek, ReadByte, ret.
  destruct (Z.ltb_spec (Position ms + 2) 0); [lia|]. simpl.
  change (byte_at (set_Position ms (Position ms + 2)) (Position ms + 2))
    with (byte_at ms (Position ms + 2)).
  destruct (byte_at ms (Position ms + 2)); same_outcome.
Qed.

Lemma skip_segment_run ms :
  0 <= Position ms -> skip_segment ms = run_skip_segment ms.
Proof.
  intros Hp. unfold skip_segment, run_skip_segment, bind, ReadUInt16.
  destruct (byte_at ms (Position ms)) as [hi|]; [|reflexivity].
  destruct (byte_at ms (Position ms + 1)) as [lo|]; [|reflexivity].
  pose proof (big_endian_range hi lo).
  unfold Seek, ret. simpl.
  destruct (Z.ltb_spec (Position ms + 2 + (big_endian hi lo - 2)) 0); [lia|].
  same_outcome.
Qed.

Lemma reserved_check_run ms : reserved_check ms = run_reserved_check ms.
Proof.
  unfold reserved_check, run_reserved_check, bind, ReadByte.
  destruct (byte_at ms (Position ms)) as [b1|]; [|reflexivity]. simpl.
  change (byte_at (set_Position ms (Position ms + 1)) (Position ms + 1))
    with (byte_at ms (Position ms + 1)).
  destruct (byte_at ms (Position ms + 1)) as [b2|]; [|reflexivity].
  fold (reserved_pair (byte_value b1) (byte_value b2)).
  destruct (reserved_pair (byte_value b1) (byte_value b2));
    unfold ret, throw; same_outcome.
Qed.

(** An iteration whose marker read succeeds runs the body of the marker's
    category on the cursor behind the marker. *)
Lemma iteration_run ms marker ms1 t1 :
  ReadUInt16 ms = (Value marker, ms1, t1) ->
  iteration ms =
    match category_body (category_of marker) ms1 with
    | (r, ms2, t2) => (r, ms2, t1 ++ t2)
    end.
Proof.
  intros H. unfold iteration, bind. rewrite H.
  rewrite case_body_category, switch_category
    by (eapply ReadUInt16_range; eassumption).
  reflexivity.
Qed.

Lemma iteration_read_fails ms :
  (byte_at ms (Position ms) = None \/ byte_at ms (Position ms + 1) = None) ->
  iteration ms =
    (Exception EndOfStreamException, exhausted ms, [Position (exhausted ms)]).
Proof.
  intros H. unfold iteration, bind, ReadUInt16.
  destruct (byte_at ms (Position ms)); [|reflexivity].
  destruct (byte_at ms (Position ms + 1)); [|reflexivity].
  destruct H; discriminate.
Qed.

(** ** What one iteration does to the cursor *)

(** Splits an iteration by the outcome of the marker read, the category of
    the marker and the bytes its body reads. *)
Ltac iteration_cases ms :=
  let hi := fresh "hi" in
  let lo := fresh "lo" in
  let Ehi := fresh "Ehi" in
  let Elo := fresh "Elo" in
  let Hread := fresh "Hread" in
  destruct (byte_at ms (Position ms)) as [hi|] eqn:Ehi;
    [ destruct (byte_at ms (Position ms + 1)) as [lo|] eqn:Elo;
      [ assert (Hread : ReadUInt16 ms =
                  (Value (big_endian hi lo),
                   set_Position ms (Position ms + 2), [Position ms + 2]))
          by (unfold ReadUInt16; rewrite Ehi, Elo; reflexivity);
        rewrite (iteration_run ms _ _ _ Hread);
        pose proof (byte_at_Some ms _ _ Ehi);
        destruct (category_of (big_endian hi lo)) eqn:Ecat;
        unfold category_body;
        [ rewrite return_precision_run by (simpl; lia);
          unfold run_return_precision
        | rewrite skip_segment_run by (simpl; lia);
          unfold run_skip_segment
        | unfold ret
        | rewrite reserved_check_run; unfold run_reserved_check ];
        cbn [Position set_Position buffer]
      | rewrite (iteration_read_fails ms) by (right; exact Elo) ]
    | rewrite (iteration_read_fails ms) by (left; exact Ehi) ].

Lemma iteration_buffer ms r ms' t :
  iteration ms = (r, ms', t) -> buffer ms' = buffer ms.
Proof.
  iteration_cases ms;
    repeat match goal with
    | |- context [match byte_at ?s ?i with _ => _ end] =>
        destruct (byte_at s i)
    end;
    intros E; inversion E; reflexivity.
Qed.

Lemma iteration_Length ms r ms' t :
  iteration ms = (r, ms', t) -> Length ms' = Length ms.
Proof.
  intros H. unfold Length. now rewrite (iteration_buffer _ _ _ _ H).
Qed.

(** An iteration that ends in [break] leaves the cursor at least two bytes
    further than it found it. *)
Lemma iteration_advances ms ms' t :
  iteration ms = (Value Break, ms', t) -> Position ms + 2 <= Position ms'.
Proof.
  iteration_cases ms;
    repeat match goal with
    | |- context [match byte_at ?s ?i with _ => _ end] =>
        destruct (byte_at s i)
    | |- context [big_endian ?h ?l] =>
        lazymatch goal with
        | _ : 0 <= big_endian h l < 65536 |- _ => fail
        | _ => pose proof (big_endian_range h l)
        end
    | |- context [if ?c then _ else _] => destruct c
    end;
    intros E; inversion E; subst; cbn [Position set_Position buffer]; lia.
Qed.


(** Only the body of a Start-Of-Frame marker returns, and what it returns is
    the byte four bytes behind the start of the marker. *)
Lemma iteration_Return ms depth ms' t :
  iteration ms = (Value (Return depth), ms', t) ->
  exists marker ms1 t1 P,
    ReadUInt16 ms = (Value marker, ms1, t1) /\
    In marker SOF_markers /\
    byte_at ms (Position ms + 4) = Some P /\
    depth = byte_value P.
Proof.
  iteration_cases ms;
    repeat match goal with
    | |- context [match byte_at ?s ?i with _ => _ end] =>
        let b := fresh "b" in
        let Eb := fresh "Eb" in destruct (byte_at s i) as [b|] eqn:Eb
    | |- context [if ?c then _ else _] => destruct c
    end;
    intros E; inversion E; subst.
  eexists _, _, _, b. split; [exact Hread|]. split; [|split].
  - apply member_In. unfold category_of in Ecat.
    destruct (member _ SOF_markers); [reflexivity|].
    destruct (member _ length_prefixed_markers); [discriminate|].
    destruct (member _ zero_payload_markers); discriminate.
  - rewrite <- Eb. unfold byte_at. simpl. f_equal; try lia.
    replace (Position ms + 2 + 2) with (Position ms + 4) by lia. reflexivity.
  - reflexivity.
Qed.

(** ** The loop *)

Lemma while_loop_S fuel ms :
  while_loop (S fuel) ms =
    if Position ms <? Length ms then
      match iteration ms with
      | (Value Break, ms', t) =>
          match while_loop fuel ms' with
          | Some (r, ms'', tr) => Some (r, ms'', (Position ms, t) :: tr)
          | None => None
          end
      | (Value (Return depth), ms', t) =>
          Some (Value depth, ms', [(Position ms, t)])
      | (Exception e, ms', t) =>
          Some (Exception e, ms', [(Position ms, t)])
      end
    else Some (Exception NotFoundError, ms, []).
Proof. reflexivity. Qed.

(** The outcome of the loop does not depend on the bound, once the bound is
    large enough for the loop to finish. *)
Lemma while_loop_more_fuel fuel : forall ms out,
  while_loop fuel ms = Some out ->
  forall fuel', (fuel <= fuel')%nat -> while_loop fuel' ms = Some out.
Proof.
  induction fuel as [|fuel IH]; intros ms out H fuel' Hle; [discriminate|].
  destruct fuel' as [|fuel']; [lia|].
  simpl in H |- *.
  destruct (Position ms <? Length ms); [|assumption].
  destruct (iteration ms) as [[[[|depth]|e] ms1] t]; try assumption.
  destruct (while_loop fuel ms1) as [out1|] eqn:E1; [|discriminate].
  rewrite (IH ms1 out1 E1 fuel') by lia. assumption.
Qed.

(** The loop finishes within [iterations_bound]. *)
Lemma while_loop_finishes fuel : forall ms,
  (iterations_bound ms <= fuel)%nat -> exists out, while_loop fuel ms = Some out.
Proof.
  unfold iterations_bound.
  induction fuel as [|fuel IH]; intros ms Hfuel; [lia|].
  simpl. destruct (Z.ltb_spec (Position ms) (Length ms)) as [Hlt|Hge];
    [|eexists; reflexivity].
  destruct (iteration ms) as [[[[|depth]|e] ms1] t] eqn:Eit;
    try (eexists; reflexivity).
  pose proof (iteration_advances _ _ _ Eit) as Hadv.
  pose proof (iteration_Length _ _ _ _ Eit) as Hlen.
  destruct (IH ms1) as [[[r ms2] tr] Hout]; [lia|].
  rewrite Hout. eexists; reflexivity.
Qed.

Lemma scan_finishes ms : exists out, scan ms = Some out.
Proof. apply while_loop_finishes. constructor. Qed.

(** Whatever bound lets the loop finish, it finishes as [scan] does. *)
Lemma while_loop_scan fuel ms out :
  while_loop fuel ms = Some out -> scan ms = Some out.
Proof.
  intros H. destruct (scan_finishes ms) as [out' H'].
  unfold scan in *.
  pose proof (while_loop_more_fuel _ _ _ H (max fuel (iterations_bound ms))
                (Nat.le_max_l _ _)) as E.
  pose proof (while_loop_more_fuel _ _ _ H' (max fuel (iterations_bound ms))
                (Nat.le_max_r _ _)) as E'.
  congruence.
Qed.

(** The loop, one iteration at a time. *)
Lemma scan_at_end ms :
  Length ms <= Position ms -> scan ms = Some (Exception NotFoundError, ms, []).
Proof.
  intros H. apply (while_loop_scan 1). simpl.
  destruct (Z.ltb_spec (Position ms) (Length ms)); [lia | reflexivity].
Qed.

Lemma scan_Break ms ms1 t r ms2 tr :
  Position ms < Length ms ->
  iteration ms = (Value Break, ms1, t) ->
  scan ms1 = Some (r, ms2, tr) ->
  scan ms = Some (r, ms2, (Position ms, t) :: tr).
Proof.
  intros Hlt Hit Hscan. apply (while_loop_scan (S (iterations_bound ms1))).
  rewrite while_loop_S. destruct (Z.ltb_spec (Position ms) (Length ms)); [|lia].
  rewrite Hit. unfold scan in Hscan. rewrite Hscan. reflexivity.
Qed.

Lemma scan_Return ms depth ms1 t :
  Position ms < Length ms ->
  iteration ms = (Value (Return depth), ms1, t) ->
  scan ms = Some (Value depth, ms1, [(Position ms, t)]).
Proof.
  intros Hlt Hit. apply (while_loop_scan 1).
  simpl. destruct (Z.ltb_spec (Position ms) (Length ms)); [|lia].
  rewrite Hit. reflexivity.
Qed.

Lemma scan_Exception ms e ms1 t :
  Position ms < Length ms ->
  iteration ms = (Exception e, ms1, t) ->
  scan ms = Some (Exception e, ms1, [(Position ms, t)]).
Proof.
  intros Hlt Hit. apply (while_loop_scan 1).
  simpl. destruct (Z.ltb_spec (Position ms) (Length ms)); [|lia].
  rewrite Hit. reflexivity.
Qed.

Lemma while_loop_inv fuel : forall ms r ms' tr,
  while_loop fuel ms = Some (r, ms', tr) ->
  exists last tr1 tr2,
    loops_to ms last /\ tr = tr1 ++ tr2 /\ stopped last (r, ms', tr2).
Proof.
  induction fuel as [|fuel IH]; intros ms r ms' tr H; [discriminate|].
  simpl in H.
  destruct (Z.ltb_spec (Position ms) (Length ms)) as [Hlt|Hge].
  - destruct (iteration ms) as [[[[|depth]|e] ms1] t] eqn:Eit.
    + destruct (while_loop fuel ms1) as [[[r1 ms2] tr1]|] eqn:E1;
        [|discriminate].
      inversion H; subst.
      destruct (IH _ _ _ _ E1) as (last & tra & trb & Hto & -> & Hstop).
      exists last, ((Position ms, t) :: tra), trb.
      split; [econstructor; eassumption|]. split; [reflexivity | assumption].
    + inversion H; subst. exists ms, [], [(Position ms, t)].
      split; [constructor|]. split; [reflexivity|].
      now apply stopped_Return.
    + inversion H; subst. exists ms, [], [(Position ms, t)].
      split; [constructor|]. split; [reflexivity|].
      now apply stopped_Exception.
  - inversion H; subst. exists ms', [], [].
    split; [constructor|]. split; [reflexivity|].
    now apply stopped_at_end.
Qed.

Lemma loops_to_buffer ms ms' : loops_to ms ms' -> buffer ms' = buffer ms.
Proof.
  induction 1 as [|ms ms1 ms2 t Hlt Hit Hto IH]; [reflexivity|].
  rewrite IH. eapply iteration_buffer; eassumption.
Qed.

(** The scan never writes to the buffer. *)
Lemma scan_buffer ms r ms' tr :
  scan ms = Some (r, ms', tr) -> buffer ms' = buffer ms.
Proof.
  intros H. apply while_loop_inv in H.
  destruct H as (last & tr1 & tr2 & Hto & _ & Hstop).
  rewrite <- (loops_to_buffer _ _ Hto).
  inversion Hstop; subst; [reflexivity| |]; eapply iteration_buffer; eassumption.
Qed.

(** ** The categories of the taxonomy *)

Lemma category_of_SOF m : In m SOF_markers -> category_of m = SOF.
Proof.
  intros H. unfold category_of. apply member_In in H. now rewrite H.
Qed.

Lemma category_of_length_prefixed m :
  In m length_prefixed_markers -> category_of m = LENGTH_SKIP.
Proof.
  intros H. simpl in H.
  repeat (destruct H as [<-|H]; [reflexivity|]). contradiction.
Qed.

Lemma category_of_zero_payload m :
  In m zero_payload_markers -> category_of m = ZERO_PAYLOAD.
Proof.
  intros H. simpl in H.
  repeat (destruct H as [<-|H]; [reflexivity|]). contradiction.
Qed.

Lemma category_of_not_enumerated m :
  ~ In m enumerated_markers -> category_of m = RESERVED_CHECK.
Proof.
  unfold enumerated_markers. rewrite !in_app_iff. intros H.
  unfold category_of.
  destruct (member m SOF_markers) eqn:E1;
    [apply member_In in E1; tauto|].
  destruct (member m length_prefixed_markers) eqn:E2;
    [apply member_In in E2; tauto|].
  destruct (member m zero_payload_markers) eqn:E3;
    [apply member_In in E3; tauto|].
  reflexivity.
Qed.

Lemma ReadUInt16_cursor ms m ms1 t :
  ReadUInt16 ms = (Value m, ms1, t) ->
  ms1 = set_Position ms (Position ms + 2) /\ t = [Position ms + 2] /\
  0 <= Position ms /\ Position ms + 2 <= Length ms.
Proof.
  intros H. apply ReadUInt16_Value in H.
  destruct H as (hi & lo & Ehi & Elo & _ & -> & ->).
  apply byte_at_Some in Ehi. apply byte_at_Some in Elo.
  repeat split; lia.
Qed.

(** ** The bodies of the switch, run behind a marker *)

Lemma iteration_SOF ms marker ms1 t1 P :
  ReadUInt16 ms = (Value marker, ms1, t1) ->
  In marker SOF_markers ->
  byte_at ms (Position ms + 4) = Some P ->
  iteration ms =
    (Value (Return (byte_value P)), set_Position ms (Position ms + 5),
     [Position ms + 2; Position ms + 4; Position ms + 5]).
Proof.
  intros Hread Hsof HP.
  destruct (ReadUInt16_cursor _ _ _ _ Hread) as (-> & -> & Hp & Hlen).
  rewrite (iteration_run _ _ _ _ Hread), (category_of_SOF _ Hsof).
  unfold category_body. rewrite return_precision_run by (simpl; lia).
  unfold run_return_precision. cbn [Position set_Position buffer].
  replace (Position ms + 2 + 2) with (Position ms + 4) by lia.
  change (byte_at _ (Position ms + 4)) with (byte_at ms (Position ms + 4)).
  rewrite HP. same_outcome.
Qed.

Lemma scan_SOF ms marker ms1 t1 P :
  ReadUInt16 ms = (Value marker, ms1, t1) ->
  In marker SOF_markers ->
  byte_at ms (Position ms + 4) = Some P ->
  scan ms =
    Some (Value (byte_value P), set_Position ms (Position ms + 5),
          [(Position ms,
            [Position ms + 2; Position ms + 4; Position ms + 5])]).
Proof.
  intros Hread Hsof HP.
  pose proof (ReadUInt16_cursor _ _ _ _ Hread) as (_ & _ & Hp & Hlen).
  apply scan_Return; [lia|]. eapply iteration_SOF; eassumption.
Qed.

Lemma scan_SOF_truncated ms marker ms1 t1 :
  ReadUInt16 ms = (Value marker, ms1, t1) ->
  In marker SOF_markers ->
  byte_at ms (Position ms + 4) = None ->
  scan ms =
    Some (Exception EndOfStreamException, set_Position ms (Position ms + 4),
          [(Position ms,
            [Position ms + 2; Position ms + 4; Position ms + 4])]).
Proof.
  intros Hread Hsof HP.
  destruct (ReadUInt16_cursor _ _ _ _ Hread) as (-> & -> & Hp & Hlen).
  apply scan_Exception; [lia|].
  rewrite (iteration_run _ _ _ _ Hread), (category_of_SOF _ Hsof).
  unfold category_body. rewrite return_precision_run by (simpl; lia).
  unfold run_return_precision. cbn [Position set_Position buffer].
  replace (Position ms + 2 + 2) with (Position ms + 4) by lia.
  change (byte_at _ (Position ms + 4)) with (byte_at ms (Position ms + 4)).
  rewrite HP. same_outcome.
Qed.

Lemma iteration_length_prefixed ms marker ms1 t1 N ms2 t2 :
  ReadUInt16 ms = (Value marker, ms1, t1) ->
  In marker length_prefixed_markers ->
  ReadUInt16 ms1 = (Value N, ms2, t2) ->
  Position ms2 = Position ms + 4 /\
  iteration ms =
    (Value Break, set_Position ms (Position ms + 4 + (N - 2)),
     [Position ms + 2; Position ms + 4; Position ms + 4 + (N - 2)]).
Proof.
  intros Hread Hin Hlength.
  destruct (ReadUInt16_cursor _ _ _ _ Hread) as (-> & -> & Hp & Hlen).
  destruct (ReadUInt16_Value _ _ _ _ Hlength)
    as (hi & lo & Ehi & Elo & -> & -> & ->).
  cbn [Position set_Position buffer]. split; [lia|].
  rewrite (iteration_run _ _ _ _ Hread), (category_of_length_prefixed _ Hin).
  unfold category_body. rewrite skip_segment_run by (simpl; lia).
  unfold run_skip_segment. rewrite Ehi, Elo. same_outcome.
Qed.

(** ** C1: a Start-Of-Frame marker ends the scan with its precision byte *)

(** C1.  When the marker read of an iteration yields a value of the
    Start-Of-Frame set and the byte four bytes behind the start of the marker
    is [P], the iteration seeks 2 bytes forward, reads one byte and returns
    it, and the scan ends there with [P] as bit depth; in particular a
    stream that begins with 0xFFC0, two length bytes and a byte [P] scans to
    [P].  (When the buffer ends before that byte, the read throws and the
    scan ends there as well.) *)
Theorem C1_SOF_returns_precision :
  (forall ms marker ms1 t1 P,
     ReadUInt16 ms = (Value marker, ms1, t1) ->
     In marker SOF_markers ->
     byte_at ms (Position ms + 4) = Some P ->
     let p := Position ms in
     iteration ms =
       (Value (Return (byte_value P)), set_Position ms (p + 5),
        [p + 2; p + 4; p + 5]) /\
     scan ms =
       Some (Value (byte_value P), set_Position ms (p + 5),
             [(p, [p + 2; p + 4; p + 5])])) /\
  (forall ms marker ms1 t1,
     ReadUInt16 ms = (Value marker, ms1, t1) ->
     In marker SOF_markers ->
     byte_at ms (Position ms + 4) = None ->
     let p := Position ms in
     scan ms =
       Some (Exception EndOfStreamException, set_Position ms (p + 4),
             [(p, [p + 2; p + 4; p + 4])])) /\
  (forall l1 l2 P rest,
     scan (fresh (xff :: xc0 :: l1 :: l2 :: P :: rest)) =
       Some (Value (byte_value P),
             mkStream (xff :: xc0 :: l1 :: l2 :: P :: rest) 5,
             [(0, [2; 4; 5])])).
Proof.
  split; [|split].
  - intros ms marker ms1 t1 P Hread Hsof HP p. split.
    + eapply iteration_SOF; eassumption.
    + eapply scan_SOF; eassumption.
  - intros ms marker ms1 t1 Hread Hsof HP p.
    eapply scan_SOF_truncated; eassumption.
  - intros l1 l2 P rest.
    exact (scan_SOF (fresh (xff :: xc0 :: l1 :: l2 :: P :: rest))
             0xffc0 _ _ P eq_refl (or_introl eq_refl) eq_refl).
Qed.

Lemma C1_SOF_returns_precision_witness :
  scan (fresh [xff; xc3; x00; x0b; x0c; x00; x10]) =
    Some (Value 12, mkStream [xff; xc3; x00; x0b; x0c; x00; x10] 5,
          [(0, [2; 4; 5])]).
Proof.
  refine (proj2 (proj1 C1_SOF_returns_precision
                   (fresh [xff; xc3; x00; x0b; x0c; x00; x10])
                   0xffc3 _ _ x0c eq_refl _ eq_refl)).
  vm_compute. tauto.
Defined.

(** ** C3: length-prefixed segments are skipped by their declared length *)

(** The byte at an offset behind a known prefix of the buffer. *)
Lemma byte_at_behind before rest p i :
  (0 <= i)%Z ->
  byte_at (mkStream (before ++ rest) p) (Z.of_nat (length before) + i)
  = nth_error rest (Z.to_nat i).
Proof.
  intros Hi. rewrite <- (Z2Nat.id i) at 1 by assumption.
  apply byte_at_app_right.
Qed.

(** C3.  When the marker read of an iteration yields a length-prefixed skip
    marker and the next 16-bit read yields the segment length [N], the
    iteration leaves the cursor [N - 2] bytes behind the length field and
    goes on with the loop; so a stream made of a COM segment of any declared
    length [N >= 2] with its [N - 2] bytes of content, followed by a SOF_0
    segment, scans to the precision byte of that segment. *)
Theorem C3_segment_skipped_by_length :
  (forall ms marker ms1 t1 N ms2 t2,
     ReadUInt16 ms = (Value marker, ms1, t1) ->
     In marker length_prefixed_markers ->
     ReadUInt16 ms1 = (Value N, ms2, t2) ->
     let p := Position ms in
     Position ms2 = p + 4 /\
     iteration ms =
       (Value Break, set_Position ms (p + 4 + (N - 2)),
        [p + 2; p + 4; p + 4 + (N - 2)])) /\
  (forall hi lo content l1 l2 P rest,
     let N := big_endian hi lo in
     Z.of_nat (length content) = N - 2 ->
     let stream :=
       [xff; xfe; hi; lo] ++ content ++ [xff; xc0; l1; l2; P] ++ rest in
     scan (fresh stream) =
       Some (Value (byte_value P), mkStream stream (N + 2 + 5),
             [(0, [2; 4; 4 + (N - 2)]);
              (N + 2, [N + 2 + 2; N + 2 + 4; N + 2 + 5])])).
Proof.
  split.
  { intros ms marker ms1 t1 N ms2 t2 Hread Hin Hlength p.
    eapply iteration_length_prefixed; eassumption. }
  intros hi lo content l1 l2 P rest N Hcontent stream.
  pose proof (big_endian_range hi lo) as HN. fold N in HN.
  assert (Hlen : Length (fresh stream) = N + 2 + 5 + Z.of_nat (length rest)).
  { unfold Length, stream, fresh. cbn [buffer].
    rewrite !length_app. cbn [length]. lia. }
  (* the COM segment *)
  assert (Hcom : iteration (fresh stream) =
            (Value Break, set_Position (fresh stream) (N + 2),
             [2; 4; 4 + (N - 2)])).
  { destruct (iteration_length_prefixed (fresh stream) 0xfffe _ _ N _ _
                eq_refl ltac:(vm_compute; tauto) eq_refl) as [_ ->].
    cbn [Position fresh]. same_outcome. }
  (* the SOF_0 segment behind it *)
  set (sof := set_Position (fresh stream) (N + 2)).
  assert (Hat : forall i, 0 <= i ->
            byte_at sof (N + 2 + i)
            = nth_error ([xff; xc0; l1; l2; P] ++ rest) (Z.to_nat i)).
  { intros i Hi. unfold sof, set_Position, fresh, stream. cbn [buffer].
    rewrite (app_assoc [xff; xfe; hi; lo] content).
    replace (N + 2) with (Z.of_nat (length ([xff; xfe; hi; lo] ++ content)))
      by (rewrite length_app; cbn [length]; lia).
    apply byte_at_behind. assumption. }
  assert (Hread : ReadUInt16 sof =
            (Value 0xffc0, set_Position sof (N + 2 + 2), [N + 2 + 2])).
  { unfold ReadUInt16. change (Position sof) with (N + 2).
    rewrite <- (Z.add_0_r (N + 2)) at 1.
    rewrite (Hat 0), (Hat 1) by lia. reflexivity. }
  assert (HP : byte_at sof (Position sof + 4) = Some P).
  { change (Position sof) with (N + 2). rewrite (Hat 4) by lia. reflexivity. }
  pose proof (scan_SOF sof 0xffc0 _ _ P Hread (or_introl eq_refl) HP)
    as Hscan.
  rewrite (scan_Break (fresh stream) sof _ _ _ _
             ltac:(rewrite Hlen; cbn; lia) Hcom Hscan).
  reflexivity.
Qed.

Lemma C3_segment_skipped_by_length_witness :
  (Position (set_Position (fresh [xff; xe0; x00; x10]) 4) = 4 /\
   iteration (fresh [xff; xe0; x00; x10]) =
     (Value Break, mkStream [xff; xe0; x00; x10] 18, [2; 4; 18])) /\
  scan (fresh [xff; xfe; x00; x04; x41; x42; xff; xc0; x00; x0b; x08]) =
    Some (Value 8,
          mkStream [xff; xfe; x00; x04; x41; x42; xff; xc0; x00; x0b; x08] 11,
          [(0, [2; 4; 6]); (6, [8; 10; 11])]).
Proof.
  split.
  - refine (proj1 C3_segment_skipped_by_length (fresh [xff; xe0; x00; x10])
              0xffe0 _ _ 16 _ _ eq_refl _ eq_refl).
    vm_compute. tauto.
  - exact (proj2 C3_segment_skipped_by_length x00 x04 [x41; x42] x00 x0b x08 []
             eq_refl).
Defined.

(** ** C4: the end of the stream without Start-Of-Frame *)

(** C4.  When the loop goes through iterations that all end in [break] to a
    cursor at or behind the end of the buffer, no Start-Of-Frame marker
    having returned, the scan throws the no-SOF-marker-found exception; so
    does the scan of the four bytes 0xFFD8 0xFFD9. *)
Theorem C4_NotFound_at_end_of_stream :
  (forall ms last,
     loops_to ms last ->
     Length last <= Position last ->
     exists tr, scan ms = Some (Exception NotFoundError, last, tr)) /\
  scan (fresh [xff; xd8; xff; xd9]) =
    Some (Exception NotFoundError, mkStream [xff; xd8; xff; xd9] 4,
          [(0, [2]); (2, [4])]).
Proof.
  split; [|reflexivity].
  intros ms last Hto. induction Hto as [ms|ms ms1 ms2 t Hlt Hit Hto IH];
    intros Hend.
  - exists []. now apply scan_at_end.
  - destruct (IH Hend) as [tr Hscan].
    exists ((Position ms, t) :: tr). eapply scan_Break; eassumption.
Qed.

Lemma C4_NotFound_at_end_of_stream_witness :
  exists tr,
    scan (fresh [xff; xd8; xff; xd0; xff; x01; xff; xd9]) =
      Some (Exception NotFoundError,
            mkStream [xff; xd8; xff; xd0; xff; x01; xff; xd9] 8, tr).
Proof.
  apply (proj1 C4_NotFound_at_end_of_stream).
  - apply (loops_on _ (mkStream [xff; xd8; xff; xd0; xff; x01; xff; xd9] 2)
             _ [2]); [reflexivity | reflexivity |].
    apply (loops_on _ (mkStream [xff; xd8; xff; xd0; xff; x01; xff; xd9] 4)
             _ [4]); [reflexivity | reflexivity |].
    apply (loops_on _ (mkStream [xff; xd8; xff; xd0; xff; x01; xff; xd9] 6)
             _ [6]); [reflexivity | reflexivity |].
    apply (loops_on _ (mkStream [xff; xd8; xff; xd0; xff; x01; xff; xd9] 8)
             _ [8]); [reflexivity | reflexivity |].
    apply loops_here.
  - vm_compute. discriminate.
Defined.

(** ** C5: the path of the cursor *)












(** ** C6, C7, C9: the [default:] body *)

Lemma iteration_RESERVED_CHECK ms marker ms1 t1 :
  ReadUInt16 ms = (Value marker, ms1, t1) ->
  category_of marker = RESERVED_CHECK ->
  iteration ms = after_unlisted_marker ms.
Proof.
  intros Hread Hcat.
  destruct (ReadUInt16_cursor _ _ _ _ Hread) as (-> & -> & Hp & Hlen).
  rewrite (iteration_run _ _ _ _ Hread), Hcat.
  unfold category_body. rewrite reserved_check_run.
  unfold run_reserved_check, after_unlisted_marker.
  cbn [Position set_Position buffer].
  replace (Position ms + 2 + 1) with (Position ms + 3) by lia.
  change (byte_at _ (Position ms + 2)) with (byte_at ms (Position ms + 2)).
  change (byte_at _ (Position ms + 3)) with (byte_at ms (Position ms + 3)).
  destruct (byte_at ms (Position ms + 2)) as [b1|]; [|same_outcome].
  destruct (byte_at ms (Position ms + 3)) as [b2|]; same_outcome.
Qed.

(** C6.  The scan of 0xFF 0x05 followed by a SOF_0 segment does not reach the
    segment: 0xFF05 has no [case] label, the [default:] body tests the two
    bytes behind it, 0xFF 0xC0, and 0xC0 is above 0xBF. *)
Theorem C6_reserved_pair_before_SOF_is_rejected :
  forall l1 l2 P rest,
    let stream := xff :: x05 :: xff :: xc0 :: l1 :: l2 :: P :: rest in
    scan (fresh stream) =
      Some (Exception SyntaxError, mkStream stream 4, [(0, [2; 3; 4])]).
Proof.
  intros l1 l2 P rest stream.
  apply (scan_Exception (fresh stream)); [|reflexivity].
  unfold Length, stream, fresh. cbn [buffer Position length]. lia.
Qed.

(** The scanner reads 0xFFA0, finds 0xFF 0x05 behind it, goes on with the
    loop and returns the precision of the SOF_0 segment that follows. *)
Lemma C7_counterexample :
  fst (fst (ReadUInt16 (fresh [xff; xa0; xff; x05; xff; xc0; x00; x0b; x08])))
    = Value 0xffa0 /\
  scan (fresh [xff; xa0; xff; x05; xff; xc0; x00; x0b; x08]) =
    Some (Value 8, mkStream [xff; xa0; xff; x05; xff; xc0; x00; x0b; x08] 9,
          [(0, [2; 3; 4]); (4, [6; 8; 9])]).
Proof. split; reflexivity. Qed.

(** C7, amended.  When the scanner reads the marker value 0xFFA0 and the two
    bytes behind it are there and are not 0xFF followed by a byte above 0x02
    and at most 0xBF, the scan throws the syntax-error exception. *)
Theorem C7_FFA0_before_unreserved_pair :
  forall ms ms1 t1 b1 b2,
    ReadUInt16 ms = (Value 0xffa0, ms1, t1) ->
    byte_at ms (Position ms + 2) = Some b1 ->
    byte_at ms (Position ms + 3) = Some b2 ->
    reserved_pair (byte_value b1) (byte_value b2) = false ->
    let p := Position ms in
    scan ms =
      Some (Exception SyntaxError, set_Position ms (p + 4),
            [(p, [p + 2; p + 3; p + 4])]).
Proof.
  intros ms ms1 t1 b1 b2 Hread H1 H2 Hpair p.
  pose proof (ReadUInt16_cursor _ _ _ _ Hread) as (_ & _ & Hp & Hlen).
  apply scan_Exception; [lia|].
  rewrite (iteration_RESERVED_CHECK _ _ _ _ Hread eq_refl).
  unfold after_unlisted_marker. rewrite H1, H2, Hpair. reflexivity.
Qed.

Lemma C7_FFA0_before_unreserved_pair_witness :
  scan (fresh [xff; xa0; xff; xd8; xff; xc0; x00; x0b; x08]) =
    Some (Exception SyntaxError,
          mkStream [xff; xa0; xff; xd8; xff; xc0; x00; x0b; x08] 4,
          [(0, [2; 3; 4])]).
Proof.
  exact (C7_FFA0_before_unreserved_pair
           (fresh [xff; xa0; xff; xd8; xff; xc0; x00; x0b; x08])
           _ _ xff xd8 eq_refl eq_refl eq_refl eq_refl).
Defined.

(** C9.  When the marker read of an iteration yields a value that has no
    [case] label, whatever its high byte, the iteration reads the two bytes
    behind the marker and decides on them: it goes on with the loop, four
    bytes behind where it began, exactly when these are 0xFF and a byte above
    0x02 and at most 0xBF; it throws the syntax-error exception when they are
    anything else, and the end-of-stream exception when they are not there. *)
Theorem C9_default_tests_the_following_bytes :
  forall ms marker ms1 t1,
    ReadUInt16 ms = (Value marker, ms1, t1) ->
    ~ In marker enumerated_markers ->
    let p := Position ms in
    iteration ms = after_unlisted_marker ms /\
    (forall ms' t,
       iteration ms = (Value Break, ms', t) <->
       (exists b1 b2,
          byte_at ms (p + 2) = Some b1 /\ byte_at ms (p + 3) = Some b2 /\
          byte_value b1 = 0xff /\ 2 < byte_value b2 <= 0xbf) /\
       ms' = set_Position ms (p + 4) /\ t = [p + 2; p + 3; p + 4]) /\
    (forall depth ms' t, iteration ms <> (Value (Return depth), ms', t)).
Proof.
  intros ms marker ms1 t1 Hread Hnot p.
  pose proof (iteration_RESERVED_CHECK _ _ _ _ Hread
                (category_of_not_enumerated _ Hnot)) as Hit.
  split; [exact Hit|].
  rewrite Hit. unfold after_unlisted_marker. fold p.
  split.
  - intros ms' t.
    destruct (byte_at ms (p + 2)) as [b1|];
      [destruct (byte_at ms (p + 3)) as [b2|]|].
    + unfold reserved_pair.
      destruct (Z.eqb_spec (byte_value b1) 0xff) as [E1|E1];
        destruct (Z.ltb_spec 2 (byte_value b2)) as [E2|E2];
        destruct (Z.leb_spec (byte_value b2) 0xbf) as [E3|E3];
        cbn [andb]; split;
        try (intros E; inversion E; subst; split;
             [exists b1, b2; repeat split; (reflexivity || assumption)
             | split; reflexivity]);
        try (intros [(c1 & c2 & Hc1 & Hc2 & Hv1 & Hv2) [-> ->]];
             inversion Hc1; inversion Hc2; subst; (reflexivity || lia));
        try discriminate.
    + split; [discriminate|].
      intros [(c1 & c2 & _ & Hc2 & _) _]. discriminate.
    + split; [discriminate|].
      intros [(c1 & c2 & Hc1 & _) _]. discriminate.
  - intros depth ms' t.
    destruct (byte_at ms (p + 2)) as [b1|];
      [destruct (byte_at ms (p + 3)) as [b2|]|]; try discriminate.
    destruct (reserved_pair (byte_value b1) (byte_value b2)); discriminate.
Qed.

Lemma C9_default_tests_the_following_bytes_witness :
  iteration (fresh [x12; x34; xff; x05; xff; xc0]) =
    after_unlisted_marker (fresh [x12; x34; xff; x05; xff; xc0]) /\
  (forall ms' t,
     iteration (fresh [x12; x34; xff; x05; xff; xc0]) = (Value Break, ms', t)
     <->
     (exists b1 b2,
        byte_at (fresh [x12; x34; xff; x05; xff; xc0]) (0 + 2) = Some b1 /\
        byte_at (fresh [x12; x34; xff; x05; xff; xc0]) (0 + 3) = Some b2 /\
        byte_value b1 = 0xff /\ 2 < byte_value b2 <= 0xbf) /\
     ms' = set_Position (fresh [x12; x34; xff; x05; xff; xc0]) (0 + 4) /\
     t = [0 + 2; 0 + 3; 0 + 4]) /\
  (forall depth ms' t,
     iteration (fresh [x12; x34; xff; x05; xff; xc0])
     <> (Value (Return depth), ms', t)).
Proof.
  refine (C9_default_tests_the_following_bytes
            (fresh [x12; x34; xff; x05; xff; xc0]) 0x1234 _ _ eq_refl _).
  apply member_not_In. reflexivity.
Defined.

(** ** C8: the scan terminates *)

(** C8.  An iteration returns a bit depth, throws, or leaves the cursor
    strictly further in the same buffer; so the loop finishes within
    [iterations_bound] iterations, with a bit depth or an exception, and a
    larger bound changes nothing; and a bit depth is only ever returned
    behind a marker of the Start-Of-Frame set, as the byte four bytes behind
    the start of that marker. *)
Theorem C8_scan_terminates :
  (forall ms ms' t,
     iteration ms = (Value Break, ms', t) ->
     Position ms < Position ms' /\ Length ms' = Length ms) /\
  (forall ms, exists r ms' tr,
     scan ms = Some (r, ms', tr) /\
     forall fuel, (iterations_bound ms <= fuel)%nat ->
                  while_loop fuel ms = Some (r, ms', tr)) /\
  (forall pixelData, exists out,
     ScanJpegForBitDepthInternal pixelData = Some out) /\
  (forall ms depth ms' tr,
     scan ms = Some (Value depth, ms', tr) ->
     exists last marker ms1 t1 P,
       loops_to ms last /\
       ReadUInt16 last = (Value marker, ms1, t1) /\
       In marker SOF_markers /\
       byte_at last (Position last + 4) = Some P /\
       depth = byte_value P).
Proof.
  split; [|split; [|split]].
  - intros ms ms' t H. split.
    + pose proof (iteration_advances _ _ _ H). lia.
    + eapply iteration_Length; eassumption.
  - intros ms. destruct (scan_finishes ms) as [[[r ms'] tr] H].
    exists r, ms', tr. split; [assumption|].
    intros fuel Hfuel. eapply while_loop_more_fuel; eassumption.
  - intros pixelData. unfold ScanJpegForBitDepthInternal.
    destruct (Fragments (PixelDataSequence pixelData)) as [|b others];
      [eexists; reflexivity|].
    destruct (scan_finishes (Stream b)) as [[[r ms'] tr] ->].
    eexists; reflexivity.
  - intros ms depth ms' tr H. apply while_loop_inv in H.
    destruct H as (last & tr1 & tr2 & Hto & _ & Hstop).
    inversion Hstop as [| d c t Hlt Hit | ]; subst.
    destruct (iteration_Return _ _ _ _ Hit)
      as (marker & ms1 & t1 & P & Hread & Hsof & HP & Hd).
    exists last, marker, ms1, t1, P. repeat split; assumption.
Qed.

Lemma C8_scan_terminates_witness :
  (Position (fresh [xff; xd8; xff; xc0; x00; x0b; x08])
   < Position (mkStream [xff; xd8; xff; xc0; x00; x0b; x08] 2) /\
   Length (mkStream [xff; xd8; xff; xc0; x00; x0b; x08] 2)
   = Length (fresh [xff; xd8; xff; xc0; x00; x0b; x08])) /\
  (exists last marker ms1 t1 P,
     loops_to (fresh [xff; xd8; xff; xc0; x00; x0b; x08]) last /\
     ReadUInt16 last = (Value marker, ms1, t1) /\
     In marker SOF_markers /\
     byte_at last (Position last + 4) = Some P /\
     8 = byte_value P).
Proof.
  split.
  - exact (proj1 C8_scan_terminates
             (fresh [xff; xd8; xff; xc0; x00; x0b; x08]) _ _ eq_refl).
  - exact (proj2 (proj2 (proj2 C8_scan_terminates))
             (fresh [xff; xd8; xff; xc0; x00; x0b; x08]) 8 _ _ eq_refl).
Defined.

(** ** C10: the scan is a function of the bytes *)

Lemma ScanJpegForBitDepthInternal_bytes pixelData r pixelData' tr :
  ScanJpegForBitDepthInternal pixelData = Some (r, pixelData', tr) ->
  fragment_bytes pixelData' = fragment_bytes pixelData.
Proof.
  unfold ScanJpegForBitDepthInternal, fragment_bytes.
  destruct (Fragments (PixelDataSequence pixelData)) as [|b others] eqn:E.
  - intros H. inversion H; subst. now rewrite E.
  - destruct (scan (Stream b)) as [[[r1 ms] tr1]|] eqn:Escan; [|discriminate].
    intros H. inversion H; subst. cbn.
    now rewrite (scan_buffer _ _ _ _ Escan).
Qed.

Lemma rewound_bytes pixelData pixelData' :
  fragment_bytes pixelData' = fragment_bytes pixelData ->
  rewound pixelData' = rewound pixelData.
Proof.
  unfold fragment_bytes, rewound. intros H. do 2 f_equal.
  rewrite <- (map_map (fun b => buffer (Stream b))
                      (fun bs => mkBuffer (fresh bs))).
  rewrite H. now rewrite map_map.
Qed.

(** C10.  The scan never writes to the buffer, and its outcome on a fresh
    cursor is determined by the bytes of the first fragment alone: scanning
    a stream, setting the cursor back to the beginning and scanning again
    gives the same bit depth, and so do two pixel data whose first fragments
    hold the same bytes. *)
Theorem C10_scan_is_a_function_of_the_bytes :
  (forall bs depth ms' tr,
     scan (fresh bs) = Some (Value depth, ms', tr) ->
     buffer ms' = bs /\
     scan (fresh (buffer ms')) = Some (Value depth, ms', tr)) /\
  (forall pixelData depth pixelData' tr,
     ScanJpegForBitDepthInternal (rewound pixelData)
       = Some (Value depth, pixelData', tr) ->
     scanned (ScanJpegForBitDepthInternal (rewound pixelData'))
       = Some (Value depth)) /\
  (forall bs others1 others2,
     scanned (ScanJpegForBitDepthInternal
                (mkPixelData (mkSequence (mkBuffer (fresh bs) :: others1))))
     = scanned (ScanJpegForBitDepthInternal
                  (mkPixelData (mkSequence (mkBuffer (fresh bs) :: others2))))).
Proof.
  split; [|split].
  - intros bs depth ms' tr H.
    pose proof (scan_buffer _ _ _ _ H) as Hb. cbn in Hb.
    split; [assumption|]. rewrite Hb. assumption.
  - intros pixelData depth pixelData' tr H.
    pose proof (ScanJpegForBitDepthInternal_bytes _ _ _ _ H) as Hb.
    apply rewound_bytes in Hb.
    assert (Hidem : rewound (rewound pixelData) = rewound pixelData).
    { unfold rewound. cbn. do 2 f_equal. rewrite map_map. reflexivity. }
    rewrite Hb, Hidem, H. reflexivity.
  - intros bs others1 others2. unfold ScanJpegForBitDepthInternal.
    cbn [Fragments PixelDataSequence Stream].
    destruct (scan (fresh bs)) as [[[r ms] tr]|]; reflexivity.
Qed.

Lemma C10_scan_is_a_function_of_the_bytes_witness :
  buffer (mkStream [xff; xd8; xff; xc0; x00; x0b; x08] 7)
    = [xff; xd8; xff; xc0; x00; x0b; x08] /\
  scan (fresh (buffer (mkStream [xff; xd8; xff; xc0; x00; x0b; x08] 7))) =
    Some (Value 8, mkStream [xff; xd8; xff; xc0; x00; x0b; x08] 7,
          [(0, [2]); (2, [4; 6; 7])]).
Proof.
  exact (proj1 C10_scan_is_a_function_of_the_bytes
           [xff; xd8; xff; xc0; x00; x0b; x08] 8 _ _ eq_refl).
Defined.

(** ** C2: the fallback detector *)

Section ResolverProperties.

Variable ScanHeaderForPrecision : DcmPixelData -> result Z * DcmPixelData.

(** C2.  The scanner always returns or throws.  When it returns a bit
    depth, [ScanHeaderForBitDepth] returns that bit depth and the fallback
    detector is not invoked.  When it throws, whatever the exception, the
    fallback detector is invoked once, on the pixel data it was given
    (the same fragments with the same bytes, the stream of the first one
    where the scan stopped), and what the detector returns or throws is
    what [ScanHeaderForBitDepth] returns or throws. *)
Theorem C2_fallback_on_any_failure :
  forall pixelData,
    (exists out, ScanJpegForBitDepthInternal pixelData = Some out) /\
    (forall depth pixelData' tr,
       ScanJpegForBitDepthInternal pixelData
         = Some (Value depth, pixelData', tr) ->
       ScanHeaderForBitDepth ScanHeaderForPrecision pixelData
         = Some (mkResolved (Value depth) pixelData' [])) /\
    (forall e pixelData' tr,
       ScanJpegForBitDepthInternal pixelData
         = Some (Exception e, pixelData', tr) ->
       fragment_bytes pixelData' = fragment_bytes pixelData /\
       ScanHeaderForBitDepth ScanHeaderForPrecision pixelData =
         Some (mkResolved (fst (ScanHeaderForPrecision pixelData'))
                          (snd (ScanHeaderForPrecision pixelData'))
                          [pixelData'])).
Proof.
  intros pixelData. split; [|split].
  - unfold ScanJpegForBitDepthInternal.
    destruct (Fragments (PixelDataSequence pixelData)) as [|b others];
      [eexists; reflexivity|].
    destruct (scan_finishes (Stream b)) as [[[r ms'] tr] ->].
    eexists; reflexivity.
  - intros depth pixelData' tr H.
    unfold ScanHeaderForBitDepth. rewrite H. reflexivity.
  - intros e pixelData' tr H. split.
    + eapply ScanJpegForBitDepthInternal_bytes; eassumption.
    + unfold ScanHeaderForBitDepth. rewrite H.
      destruct (ScanHeaderForPrecision pixelData'); reflexivity.
Qed.

End ResolverProperties.

Lemma C2_fallback_on_any_failure_witness :
  (* a stream the scanner understands *)
  ScanHeaderForBitDepth (fun pd => (Value 12, pd))
    (one_fragment [xff; xd8; xff; xc0; x00; x0b; x08] 0)
  = Some (mkResolved (Value 8)
            (one_fragment [xff; xd8; xff; xc0; x00; x0b; x08] 7) []) /\
  (* a syntax error *)
  ScanHeaderForBitDepth (fun pd => (Value 12, pd))
    (one_fragment [xff; xd8; xff; x05; xff; xc0; x00; x0b; x08] 0)
  = Some (mkResolved (Value 12)
            (one_fragment [xff; xd8; xff; x05; xff; xc0; x00; x0b; x08] 6)
            [one_fragment [xff; xd8; xff; x05; xff; xc0; x00; x0b; x08] 6]) /\
  (* a truncated stream, and a fallback detector that throws too *)
  ScanHeaderForBitDepth (fun pd => (Exception IOException, pd))
    (one_fragment [xff; xd8; xff] 0)
  = Some (mkResolved (Exception IOException)
            (one_fragment [xff; xd8; xff] 3) [one_fragment [xff; xd8; xff] 3]).
Proof.
  split; [|split].
  - exact (proj1 (proj2 (C2_fallback_on_any_failure (fun pd => (Value 12, pd))
             (one_fragment [xff; xd8; xff; xc0; x00; x0b; x08] 0)))
             8 _ _ eq_refl).
  - exact (proj2 (proj2 (proj2 (C2_fallback_on_any_failure
             (fun pd => (Value 12, pd))
             (one_fragment [xff; xd8; xff; x05; xff; xc0; x00; x0b; x08] 0)))
             SyntaxError _ _ eq_refl)).
  - exact (proj2 (proj2 (proj2 (C2_fallback_on_any_failure
             (fun pd => (Exception IOException, pd))
             (one_fragment [xff; xd8; xff] 0)))
             EndOfStreamException _ _ eq_refl)).
Defined.

(** ** More on one iteration *)

Lemma iteration_zero_payload ms marker ms1 t1 :
  ReadUInt16 ms = (Value marker, ms1, t1) ->
  In marker zero_payload_markers ->
  iteration ms =
    (Value Break, set_Position ms (Position ms + 2), [Position ms + 2]).
Proof.
  intros Hread Hin.
  destruct (ReadUInt16_cursor _ _ _ _ Hread) as (-> & -> & Hp & Hlen).
  rewrite (iteration_run _ _ _ _ Hread), (category_of_zero_payload _ Hin).
  reflexivity.
Qed.

(** An iteration throws the end-of-stream exception or, from the [default:]
    body, the syntax-error exception; its seeks never throw. *)
Lemma iteration_Exception ms e ms' t :
  iteration ms = (Exception e, ms', t) ->
  e = EndOfStreamException \/
  (e = SyntaxError /\
   exists marker ms1 t1 b1 b2,
     ReadUInt16 ms = (Value marker, ms1, t1) /\
     category_of marker = RESERVED_CHECK /\
     byte_at ms (Position ms + 2) = Some b1 /\
     byte_at ms (Position ms + 3) = Some b2 /\
     reserved_pair (byte_value b1) (byte_value b2) = false /\
     ms' = set_Position ms (Position ms + 4)).
Proof.
  destruct (ReadUInt16 ms) as [[[marker|e0] ms1] t1] eqn:Hread.
  - destruct (category_of marker) eqn:Ecat.
    + rewrite (iteration_run _ _ _ _ Hread), Ecat.
      destruct (ReadUInt16_cursor _ _ _ _ Hread) as (-> & -> & Hp & Hlen).
      unfold category_body. rewrite return_precision_run by (simpl; lia).
      unfold run_return_precision.
      destruct (byte_at _ _); intros E; inversion E; subst. now left.
    + rewrite (iteration_run _ _ _ _ Hread), Ecat.
      destruct (ReadUInt16_cursor _ _ _ _ Hread) as (-> & -> & Hp & Hlen).
      unfold category_body. rewrite skip_segment_run by (simpl; lia).
      unfold run_skip_segment.
      destruct (byte_at _ _); [destruct (byte_at _ _)|];
        intros E; inversion E; subst; now left.
    + rewrite (iteration_run _ _ _ _ Hread), Ecat.
      intros E; inversion E.
    + rewrite (iteration_RESERVED_CHECK _ _ _ _ Hread Ecat).
      unfold after_unlisted_marker.
      destruct (byte_at ms (Position ms + 2)) as [b1|] eqn:E1;
        [destruct (byte_at ms (Position ms + 3)) as [b2|] eqn:E2|].
      * destruct (reserved_pair (byte_value b1) (byte_value b2)) eqn:Epair;
          intros E; inversion E; subst.
        right. split; [reflexivity|].
        exists marker, ms1, t1, b1, b2. repeat split; assumption.
      * intros E; inversion E; subst. now left.
      * intros E; inversion E; subst. now left.
  - unfold iteration, bind. rewrite Hread. intros E; inversion E; subst.
    unfold ReadUInt16 in Hread.
    destruct (byte_at ms (Position ms));
      [destruct (byte_at ms (Position ms + 1))|];
      inversion Hread; now left.
Qed.

(** An iteration leaves the cursor where it found it or further. *)
Lemma iteration_Position ms r ms' t :
  iteration ms = (r, ms', t) -> Position ms <= Position ms'.
Proof.
  iteration_cases ms;
    repeat match goal with
    | |- context [match byte_at ?s ?i with _ => _ end] =>
        destruct (byte_at s i)
    | |- context [big_endian ?h ?l] =>
        lazymatch goal with
        | _ : 0 <= big_endian h l < 65536 |- _ => fail
        | _ => pose proof (big_endian_range h l)
        end
    end;
    intros E; inversion E; subst; unfold exhausted;
    cbn [Position set_Position buffer]; lia.
Qed.

Lemma loops_to_Position ms ms' : loops_to ms ms' -> Position ms <= Position ms'.
Proof.
  induction 1 as [|ms ms1 ms2 t Hlt Hit Hto IH]; [lia|].
  pose proof (iteration_advances _ _ _ Hit). lia.
Qed.

Lemma loops_to_Length ms ms' : loops_to ms ms' -> Length ms' = Length ms.
Proof.
  intros H. unfold Length. now rewrite (loops_to_buffer _ _ H).
Qed.

(** A scan from a cursor the loop reaches ends as the scan from the cursor
    the loop began at. *)
Lemma scan_loops_to ms last :
  loops_to ms last ->
  forall r ms' tr,
    scan last = Some (r, ms', tr) ->
    exists tr', scan ms = Some (r, ms', tr').
Proof.
  induction 1 as [ms|ms ms1 ms2 t Hlt Hit Hto IH]; intros r ms' tr Hscan.
  - exists tr. assumption.
  - destruct (IH _ _ _ Hscan) as [tr1 H1].
    exists ((Position ms, t) :: tr1). eapply scan_Break; eassumption.
Qed.

Lemma scan_inv ms r ms' tr :
  scan ms = Some (r, ms', tr) ->
  exists last tr1 tr2,
    loops_to ms last /\ tr = tr1 ++ tr2 /\ stopped last (r, ms', tr2).
Proof. apply while_loop_inv. Qed.

(** ** Markers without payload (lines 66-76, 116-117) *)

(** Behind RST0-RST7, SOI, EOI or TEM the iteration reads nothing more: it
    ends two bytes behind where it began, and the scan goes on from there
    as a scan of its own. *)
Theorem zero_payload_marker_takes_two_bytes :
  forall ms marker ms1 t1,
    ReadUInt16 ms = (Value marker, ms1, t1) ->
    In marker zero_payload_markers ->
    let p := Position ms in
    iteration ms = (Value Break, set_Position ms (p + 2), [p + 2]) /\
    (forall r ms' tr,
       scan (set_Position ms (p + 2)) = Some (r, ms', tr) ->
       scan ms = Some (r, ms', (p, [p + 2]) :: tr)).
Proof.
  intros ms marker ms1 t1 Hread Hin p.
  pose proof (iteration_zero_payload _ _ _ _ Hread Hin) as Hit.
  split; [exact Hit|].
  intros r ms' tr Hscan.
  pose proof (ReadUInt16_cursor _ _ _ _ Hread) as (_ & _ & Hp & Hlen).
  eapply scan_Break; [lia | exact Hit | exact Hscan].
Qed.

Lemma zero_payload_marker_takes_two_bytes_witness :
  iteration (fresh [xff; x01; xff; xc0; x00; x0b; x08]) =
    (Value Break, mkStream [xff; x01; xff; xc0; x00; x0b; x08] 2, [2]) /\
  scan (fresh [xff; x01; xff; xc0; x00; x0b; x08]) =
    Some (Value 8, mkStream [xff; x01; xff; xc0; x00; x0b; x08] 7,
          [(0, [2]); (2, [4; 6; 7])]).
Proof.
  pose proof (zero_payload_marker_takes_two_bytes
                (fresh [xff; x01; xff; xc0; x00; x0b; x08]) 0xff01 _ _
                eq_refl ltac:(vm_compute; tauto)) as [Hit Hscan].
  split; [exact Hit|].
  exact (Hscan _ _ _ eq_refl).
Defined.

(** ** The exceptions of the scanner *)

(** The scan ends with no other exception than the two of lines 124 and 127
    and the end-of-stream exception of a read: no seek of the scanner ever
    goes before the beginning of the stream.  On pixel data the only other
    exception is that of [Fragments[0]], and only when there is no
    fragment. *)
Theorem scanner_exceptions :
  (forall ms e ms' tr,
     scan ms = Some (Exception e, ms', tr) -> scan_exception e) /\
  (forall pixelData e pixelData' tr,
     ScanJpegForBitDepthInternal pixelData
       = Some (Exception e, pixelData', tr) ->
     scan_exception e \/
     (e = ArgumentOutOfRangeException /\
      Fragments (PixelDataSequence pixelData) = [] /\
      pixelData' = pixelData)).
Proof.
  assert (Hscan : forall ms e ms' tr,
            scan ms = Some (Exception e, ms', tr) -> scan_exception e).
  { intros ms e ms' tr H. apply scan_inv in H.
    destruct H as (last & tr1 & tr2 & _ & _ & Hstop).
    inversion Hstop as [| | e0 c t Hlt Hit]; subst.
    - left. reflexivity.
    - destruct (iteration_Exception _ _ _ _ Hit) as [->|[-> _]].
      + right. right. reflexivity.
      + right. left. reflexivity. }
  split; [exact Hscan|].
  intros pixelData e pixelData' tr. unfold ScanJpegForBitDepthInternal.
  destruct (Fragments (PixelDataSequence pixelData)) as [|b others].
  - intros H. inversion H; subst. right. repeat split.
  - destruct (scan (Stream b)) as [[[r ms] tr1]|] eqn:E; [|discriminate].
    intros H. inversion H; subst. left. eapply Hscan; eassumption.
Qed.

Lemma scanner_exceptions_witness :
  scan_exception EndOfStreamException /\
  (scan_exception ArgumentOutOfRangeException \/
   (ArgumentOutOfRangeException = ArgumentOutOfRangeException /\
    Fragments (PixelDataSequence (mkPixelData (mkSequence []))) = [] /\
    mkPixelData (mkSequence []) = mkPixelData (mkSequence []))).
Proof.
  split.
  - exact (proj1 scanner_exceptions (fresh [xff; xd8; xff]) _ _ _ eq_refl).
  - exact (proj2 scanner_exceptions (mkPixelData (mkSequence [])) _ _ _
             eq_refl).
Defined.

(** The no-SOF-marker-found exception is thrown exactly when the loop went
    through iterations that all ended in [break] to a cursor at or behind the
    end of the buffer; the cursor is left there. *)
Theorem NotFound_exactly_at_end_of_stream :
  forall ms ms',
    (exists tr, scan ms = Some (Exception NotFoundError, ms', tr)) <->
    (loops_to ms ms' /\ Length ms' <= Position ms').
Proof.
  intros ms ms'. split.
  - intros [tr H]. apply scan_inv in H.
    destruct H as (last & tr1 & tr2 & Hto & _ & Hstop).
    inversion Hstop as [Hend | | e0 c t Hlt Hit]; subst.
    + split; assumption.
    + destruct (iteration_Exception _ _ _ _ Hit) as [E|[E _]];
        discriminate E.
  - intros [Hto Hend].
    eapply scan_loops_to; [exact Hto|]. now apply scan_at_end.
Qed.

(** The syntax-error exception is thrown only by the [default:] body, four
    bytes behind the start of a marker that has no [case] label, when the
    two bytes behind that marker are there and fail the reserved-range
    test. *)
Theorem SyntaxError_only_from_default :
  forall ms ms' tr,
    scan ms = Some (Exception SyntaxError, ms', tr) ->
    exists last marker ms1 t1 b1 b2,
      loops_to ms last /\
      ReadUInt16 last = (Value marker, ms1, t1) /\
      ~ In marker enumerated_markers /\
      byte_at last (Position last + 2) = Some b1 /\
      byte_at last (Position last + 3) = Some b2 /\
      reserved_pair (byte_value b1) (byte_value b2) = false /\
      ms' = set_Position last (Position last + 4).
Proof.
  intros ms ms' tr H. apply scan_inv in H.
  destruct H as (last & tr1 & tr2 & Hto & _ & Hstop).
  inversion Hstop as [Hend | | e0 c t Hlt Hit]; subst.
  destruct (iteration_Exception _ _ _ _ Hit) as [E|[_ Hdef]];
    [discriminate E|].
  destruct Hdef as (marker & ms1 & t1 & b1 & b2 & Hread & Hcat & H1 & H2
                    & Hpair & ->).
  exists last, marker, ms1, t1, b1, b2. repeat split; try assumption.
  unfold enumerated_markers. rewrite !in_app_iff. intros [Hin|[Hin|Hin]].
  - rewrite (category_of_SOF _ Hin) in Hcat. discriminate.
  - rewrite (category_of_length_prefixed _ Hin) in Hcat. discriminate.
  - rewrite (category_of_zero_payload _ Hin) in Hcat. discriminate.
Qed.

Lemma SyntaxError_only_from_default_witness :
  exists last marker ms1 t1 b1 b2,
    loops_to (fresh [xff; xd8; x00; x00; xff; xc0]) last /\
    ReadUInt16 last = (Value marker, ms1, t1) /\
    ~ In marker enumerated_markers /\
    byte_at last (Position last + 2) = Some b1 /\
    byte_at last (Position last + 3) = Some b2 /\
    reserved_pair (byte_value b1) (byte_value b2) = false /\
    mkStream [xff; xd8; x00; x00; xff; xc0] 6
      = set_Position last (Position last + 4).
Proof.
  exact (SyntaxError_only_from_default
           (fresh [xff; xd8; x00; x00; xff; xc0]) _ _ eq_refl).
Defined.

(** ** What the scanner returns *)

(** A bit depth the scanner returns is the value of one byte, so it lies
    between 0 and 255, and so does what [ScanHeaderForBitDepth] returns when
    it did not invoke the fallback detector. *)
Theorem bit_depth_is_a_byte :
  (forall ms depth ms' tr,
     scan ms = Some (Value depth, ms', tr) -> 0 <= depth <= 255) /\
  (forall fallback pixelData res,
     ScanHeaderForBitDepth fallback pixelData = Some res ->
     fallback_calls res = [] ->
     exists depth, outcome res = Value depth /\ 0 <= depth <= 255).
Proof.
  assert (Hscan : forall ms depth ms' tr,
            scan ms = Some (Value depth, ms', tr) -> 0 <= depth <= 255).
  { intros ms depth ms' tr H. apply scan_inv in H.
    destruct H as (last & tr1 & tr2 & _ & _ & Hstop).
    inversion Hstop as [| d c t Hlt Hit | ]; subst.
    destruct (iteration_Return _ _ _ _ Hit)
      as (marker & ms1 & t1 & P & _ & _ & _ & ->).
    apply byte_value_range. }
  split; [exact Hscan|].
  intros fallback pixelData res. unfold ScanHeaderForBitDepth.
  destruct (ScanJpegForBitDepthInternal pixelData)
    as [[[[depth|e] pd'] tr]|] eqn:E; [| |discriminate].
  - intros H _. inversion H; subst. exists depth. split; [reflexivity|].
    unfold ScanJpegForBitDepthInternal in E.
    destruct (Fragments (PixelDataSequence pixelData)) as [|b others];
      [discriminate|].
    destruct (scan (Stream b)) as [[[r ms] tr1]|] eqn:Es; [|discriminate].
    inversion E; subst. eapply Hscan; eassumption.
  - destruct (fallback pd'). intros H Hcalls. inversion H; subst.
    discriminate.
Qed.

Lemma bit_depth_is_a_byte_witness :
  0 <= 8 <= 255 /\
  exists depth,
    outcome (mkResolved (Value 8)
               (one_fragment [xff; xc0; x00; x0b; x08] 5) []) = Value depth /\
    0 <= depth <= 255.
Proof.
  split.
  - exact (proj1 bit_depth_is_a_byte (fresh [xff; xc0; x00; x0b; x08])
             8 _ _ eq_refl).
  - exact (proj2 bit_depth_is_a_byte (fun pd => (Value 12, pd))
             (one_fragment [xff; xc0; x00; x0b; x08] 0) _ eq_refl eq_refl).
Defined.

(** ** How long the loop runs *)

Lemma while_loop_iterations fuel : forall ms r ms' tr,
  while_loop fuel ms = Some (r, ms', tr) ->
  2 * Z.of_nat (length tr) <= Z.max 0 (Length ms - Position ms + 1).
Proof.
  induction fuel as [|fuel IH]; intros ms r ms' tr H; [discriminate|].
  rewrite while_loop_S in H.
  destruct (Z.ltb_spec (Position ms) (Length ms)) as [Hlt|Hge].
  - destruct (iteration ms) as [[[[|depth]|e] ms1] t] eqn:Eit.
    + destruct (while_loop fuel ms1) as [[[r2 ms2] tr2]|] eqn:E2;
        [|discriminate].
      inversion H; subst.
      pose proof (iteration_advances _ _ _ Eit) as Hadv.
      pose proof (iteration_Length _ _ _ _ Eit) as Hlen.
      pose proof (IH _ _ _ _ E2) as Hrec.
      cbn [length]. lia.
    + inversion H; subst. cbn [length]. lia.
    + inversion H; subst. cbn [length]. lia.
  - inversion H; subst. cbn [length]. lia.
Qed.

(** The loop runs at most once for every two bytes between the cursor and
    the end of the buffer (rounded up), and not at all when the cursor is
    at or behind the end. *)
Theorem iterations_at_most_half_the_bytes :
  forall ms r ms' tr,
    scan ms = Some (r, ms', tr) ->
    2 * Z.of_nat (length tr) <= Z.max 0 (Length ms - Position ms + 1).
Proof.
  intros ms r ms' tr H. eapply while_loop_iterations. exact H.
Qed.

Lemma iterations_at_most_half_the_bytes_witness :
  2 * Z.of_nat (length [(0, [2]); (2, [4]); (4, [6; 8; 9])])
  <= Z.max 0 (Length (fresh [xff; xd8; xff; xd0; xff; xc0; x00; x0b; x08])
              - Position (fresh [xff; xd8; xff; xd0; xff; xc0; x00; x0b; x08])
              + 1).
Proof.
  exact (iterations_at_most_half_the_bytes
           (fresh [xff; xd8; xff; xd0; xff; xc0; x00; x0b; x08]) _ _ _
           eq_refl).
Defined.

(** ** Streams that end too early *)

(** A length-prefixed segment whose declared length reaches to the end of
    the buffer or beyond it is skipped all the same: the seek leaves the
    cursor at or behind the end, the loop ends, and the scan throws the
    no-SOF-marker-found exception, not a read error. *)
Theorem overlong_segment_ends_in_NotFound :
  forall ms marker ms1 t1 N ms2 t2,
    ReadUInt16 ms = (Value marker, ms1, t1) ->
    In marker length_prefixed_markers ->
    ReadUInt16 ms1 = (Value N, ms2, t2) ->
    Length ms <= Position ms + 2 + N ->
    let p := Position ms in
    scan ms =
      Some (Exception NotFoundError, set_Position ms (p + 4 + (N - 2)),
            [(p, [p + 2; p + 4; p + 4 + (N - 2)])]).
Proof.
  intros ms marker ms1 t1 N ms2 t2 Hread Hin Hlength Hover p.
  destruct (iteration_length_prefixed _ _ _ _ _ _ _ Hread Hin Hlength)
    as [_ Hit].
  pose proof (ReadUInt16_cursor _ _ _ _ Hread) as (_ & _ & Hp & Hlen).
  eapply scan_Break; [lia | exact Hit |].
  apply scan_at_end. unfold Length in *. cbn [Position set_Position buffer].
  fold p. lia.
Qed.

Lemma overlong_segment_ends_in_NotFound_witness :
  scan (fresh [xff; xe0; x00; x10; x4a; x46; xff; xc0]) =
    Some (Exception NotFoundError,
          mkStream [xff; xe0; x00; x10; x4a; x46; xff; xc0] 18,
          [(0, [2; 4; 18])]).
Proof.
  refine (overlong_segment_ends_in_NotFound
            (fresh [xff; xe0; x00; x10; x4a; x46; xff; xc0]) 0xffe0 _ _ 16
            _ _ eq_refl _ eq_refl _).
  - vm_compute. tauto.
  - vm_compute. discriminate.
Defined.

(** When the loop comes to a cursor with exactly one byte left, the marker
    read throws: the scan ends with the end-of-stream exception, not with the
    no-SOF-marker-found exception. *)
Theorem single_trailing_byte_is_a_read_error :
  forall ms last,
    loops_to ms last ->
    0 <= Position last ->
    Position last + 1 = Length last ->
    exists ms' tr, scan ms = Some (Exception EndOfStreamException, ms', tr).
Proof.
  intros ms last Hto Hp Hone.
  assert (Hnone : byte_at last (Position last + 1) = None).
  { unfold byte_at. destruct (Z.ltb_spec (Position last + 1) 0); [reflexivity|].
    apply nth_error_None. unfold Length in Hone. lia. }
  pose proof (iteration_read_fails last (or_intror Hnone)) as Hit.
  pose proof (scan_Exception last _ _ _ ltac:(lia) Hit) as Hscan.
  destruct (scan_loops_to _ _ Hto _ _ _ Hscan) as [tr Htr].
  eexists _, tr. exact Htr.
Qed.

Lemma single_trailing_byte_is_a_read_error_witness :
  exists ms' tr,
    scan (fresh [xff; xd8; xff; xd9; xff]) =
      Some (Exception EndOfStreamException, ms', tr).
Proof.
  refine (single_trailing_byte_is_a_read_error
            (fresh [xff; xd8; xff; xd9; xff])
            (mkStream [xff; xd8; xff; xd9; xff] 4) _ _ _).
  - apply (loops_on _ (mkStream [xff; xd8; xff; xd9; xff] 2) _ [2]);
      [reflexivity | reflexivity |].
    apply (loops_on _ (mkStream [xff; xd8; xff; xd9; xff] 4) _ [4]);
      [reflexivity | reflexivity |].
    apply loops_here.
  - vm_compute. discriminate.
  - reflexivity.
Defined.

(** ** What the scanner leaves behind *)

Lemma scan_Position ms r ms' tr :
  scan ms = Some (r, ms', tr) -> Position ms <= Position ms'.
Proof.
  intros H. apply scan_inv in H.
  destruct H as (last & tr1 & tr2 & Hto & _ & Hstop).
  pose proof (loops_to_Position _ _ Hto) as Hle.
  inversion Hstop as [Hend | d c t Hlt Hit | e c t Hlt Hit]; subst.
  - assumption.
  - pose proof (iteration_Position _ _ _ _ Hit). lia.
  - pose proof (iteration_Position _ _ _ _ Hit). lia.
Qed.

(** The scanner touches nothing but the position of the stream of the first
    fragment: the other fragments are left as they are, the bytes of the
    first one too, and its stream is left where it was or further.  Without
    a first fragment the pixel data is left as it is. *)
Theorem scanner_moves_only_the_first_stream :
  forall pixelData r pixelData' tr,
    ScanJpegForBitDepthInternal pixelData = Some (r, pixelData', tr) ->
    (Fragments (PixelDataSequence pixelData) = [] /\ pixelData' = pixelData)
    \/
    (exists first others ms',
       Fragments (PixelDataSequence pixelData) = first :: others /\
       pixelData' = mkPixelData (mkSequence (mkBuffer ms' :: others)) /\
       buffer ms' = buffer (Stream first) /\
       Position (Stream first) <= Position ms').
Proof.
  intros pixelData r pixelData' tr. unfold ScanJpegForBitDepthInternal.
  destruct (Fragments (PixelDataSequence pixelData)) as [|b others].
  - intros H. inversion H; subst. left. split; reflexivity.
  - destruct (scan (Stream b)) as [[[r1 ms] tr1]|] eqn:E; [|discriminate].
    intros H. inversion H; subst. right. exists b, others, ms.
    split; [reflexivity|]. split; [reflexivity|]. split.
    + eapply scan_buffer; eassumption.
    + eapply scan_Position; eassumption.
Qed.

Lemma scanner_moves_only_the_first_stream_witness :
  (Fragments (PixelDataSequence
     (mkPixelData (mkSequence [mkBuffer (fresh [xff; xc0; x00; x0b; x08]);
                               mkBuffer (mkStream [x01; x02] 1)]))) = [] /\
   mkPixelData (mkSequence
     [mkBuffer (mkStream [xff; xc0; x00; x0b; x08] 5);
      mkBuffer (mkStream [x01; x02] 1)])
   = mkPixelData (mkSequence [mkBuffer (fresh [xff; xc0; x00; x0b; x08]);
                              mkBuffer (mkStream [x01; x02] 1)]))
  \/
  (exists first others ms',
     Fragments (PixelDataSequence
       (mkPixelData (mkSequence [mkBuffer (fresh [xff; xc0; x00; x0b; x08]);
                                 mkBuffer (mkStream [x01; x02] 1)])))
       = first :: others /\
     mkPixelData (mkSequence
       [mkBuffer (mkStream [xff; xc0; x00; x0b; x08] 5);
        mkBuffer (mkStream [x01; x02] 1)])
     = mkPixelData (mkSequence (mkBuffer ms' :: others)) /\
     buffer ms' = buffer (Stream first) /\
     Position (Stream first) <= Position ms').
Proof.
  exact (scanner_moves_only_the_first_stream
           (mkPixelData (mkSequence [mkBuffer (fresh [xff; xc0; x00; x0b; x08]);
                                     mkBuffer (mkStream [x01; x02] 1)]))
           _ _ _ eq_refl).
Defined.

(** ** The labels of the switch *)

Lemma unlisted_table :
  all_markers
    (fun m => Bool.eqb (is_default (switch m)) (unlisted_range m)) = true.
Proof. vm_compute. reflexivity. Qed.

(** Of all values of an [unsigned short], the switch sends to [default:]
    exactly those up to 0xFF00, those from 0xFF02 to 0xFFBF, and 0xFFFF: so
    any value whose high byte is not 0xFF, every reserved marker
    0xFF02-0xFFBF itself, and the fill pair 0xFFFF. *)
Theorem switch_default_ranges :
  forall m,
    0 <= m < 65536 ->
    (switch m = case_default <->
     m <= 0xff00 \/ 0xff02 <= m <= 0xffbf \/ m = 0xffff).
Proof.
  intros m Hm.
  pose proof (all_markers_spec _ unlisted_table m Hm) as T. cbn beta in T.
  apply Bool.eqb_prop in T.
  assert (Hd : switch m = case_default <-> is_default (switch m) = true).
  { destruct (switch m); simpl; split; congruence. }
  rewrite Hd, T. unfold unlisted_range.
  rewrite !orb_true_iff, andb_true_iff, !Z.ltb_lt, Z.eqb_eq. lia.
Qed.

Lemma switch_default_ranges_witness :
  switch 0xffff = case_default <->
  0xffff <= 0xff00 \/ 0xff02 <= 0xffff <= 0xffbf \/ 0xffff = 0xffff.
Proof.
  apply (switch_default_ranges 0xffff). lia.
Defined.

(** ** Bytes the scan does not read: behind the point where it stops *)

Lemma byte_at_extended ms extra i b :
  byte_at ms i = Some b -> byte_at (extended ms extra) i = Some b.
Proof.
  unfold byte_at, extended. cbn [buffer].
  destruct (i <? 0); [discriminate|]. intros H.
  rewrite nth_error_app1; [assumption|].
  apply nth_error_Some. congruence.
Qed.

Lemma ReadUInt16_throws ms e ms1 t :
  ReadUInt16 ms = (Exception e, ms1, t) -> e = EndOfStreamException.
Proof.
  unfold ReadUInt16.
  destruct (byte_at ms (Position ms));
    [destruct (byte_at ms (Position ms + 1))|];
    intros H; inversion H; reflexivity.
Qed.

(** The three bodies read the same bytes and do the same on the longer
    buffer, unless they ran into the end of the shorter one. *)
Lemma run_return_precision_extended c extra r c' t :
  run_return_precision c = (r, c', t) ->
  r <> Exception EndOfStreamException ->
  run_return_precision (extended c extra) = (r, extended c' extra, t).
Proof.
  unfold run_return_precision. cbn [Position extended].
  destruct (byte_at c (Position c + 2)) as [b|] eqn:E.
  - rewrite (byte_at_extended _ extra _ _ E).
    intros H _. inversion H; subst. reflexivity.
  - intros H Hne. inversion H; subst. congruence.
Qed.

Lemma run_skip_segment_extended c extra r c' t :
  run_skip_segment c = (r, c', t) ->
  r <> Exception EndOfStreamException ->
  run_skip_segment (extended c extra) = (r, extended c' extra, t).
Proof.
  unfold run_skip_segment. cbn [Position extended].
  destruct (byte_at c (Position c)) as [hi|] eqn:E1;
    [destruct (byte_at c (Position c + 1)) as [lo|] eqn:E2|].
  - rewrite (byte_at_extended _ extra _ _ E1), (byte_at_extended _ extra _ _ E2).
    intros H _. inversion H; subst. reflexivity.
  - intros H Hne. inversion H; subst. congruence.
  - intros H Hne. inversion H; subst. congruence.
Qed.

Lemma run_reserved_check_extended c extra r c' t :
  run_reserved_check c = (r, c', t) ->
  r <> Exception EndOfStreamException ->
  run_reserved_check (extended c extra) = (r, extended c' extra, t).
Proof.
  unfold run_reserved_check. cbn [Position extended].
  destruct (byte_at c (Position c)) as [b1|] eqn:E1;
    [destruct (byte_at c (Position c + 1)) as [b2|] eqn:E2|].
  - rewrite (byte_at_extended _ extra _ _ E1), (byte_at_extended _ extra _ _ E2).
    intros H _. inversion H; subst. reflexivity.
  - intros H Hne. inversion H; subst. congruence.
  - intros H Hne. inversion H; subst. congruence.
Qed.

Lemma iteration_extended ms extra r ms' t :
  iteration ms = (r, ms', t) ->
  r <> Exception EndOfStreamException ->
  iteration (extended ms extra) = (r, extended ms' extra, t).
Proof.
  intros H Hne.
  destruct (ReadUInt16 ms) as [[[marker|e0] ms1] t1] eqn:Hread.
  2: { unfold iteration, bind in H. rewrite Hread in H. inversion H; subst.
       apply ReadUInt16_throws in Hread. congruence. }
  destruct (ReadUInt16_Value _ _ _ _ Hread)
    as (hi & lo & Ehi & Elo & -> & -> & ->).
  pose proof (byte_at_Some _ _ _ Ehi) as Hp.
  assert (Hread' : ReadUInt16 (extended ms extra) =
            (Value (big_endian hi lo),
             extended (set_Position ms (Position ms + 2)) extra,
             [Position ms + 2])).
  { unfold ReadUInt16. cbn [Position extended].
    rewrite (byte_at_extended _ extra _ _ Ehi),
            (byte_at_extended _ extra _ _ Elo). reflexivity. }
  rewrite (iteration_run _ _ _ _ Hread) in H.
  rewrite (iteration_run _ _ _ _ Hread').
  destruct (category_of (big_endian hi lo)); unfold category_body in *.
  - rewrite return_precision_run in H |- * by (cbn; lia).
    destruct (run_return_precision (set_Position ms (Position ms + 2)))
      as [[r1 c1] t2] eqn:E.
    inversion H; subst.
    now rewrite (run_return_precision_extended _ extra _ _ _ E Hne).
  - rewrite skip_segment_run in H |- * by (cbn; lia).
    destruct (run_skip_segment (set_Position ms (Position ms + 2)))
      as [[r1 c1] t2] eqn:E.
    inversion H; subst.
    now rewrite (run_skip_segment_extended _ extra _ _ _ E Hne).
  - unfold ret in *. inversion H; subst. reflexivity.
  - rewrite reserved_check_run in H |- *.
    destruct (run_reserved_check (set_Position ms (Position ms + 2)))
      as [[r1 c1] t2] eqn:E.
    inversion H; subst.
    now rewrite (run_reserved_check_extended _ extra _ _ _ E Hne).
Qed.

Lemma Length_extended ms extra :
  Length (extended ms extra) = Length ms + Z.of_nat (length extra).
Proof. unfold Length, extended. cbn [buffer]. rewrite length_app. lia. Qed.

Lemma while_loop_extended extra fuel : forall ms r ms' tr,
  while_loop fuel ms = Some (r, ms', tr) ->
  r <> Exception EndOfStreamException ->
  r <> Exception NotFoundError ->
  while_loop fuel (extended ms extra) = Some (r, extended ms' extra, tr).
Proof.
  induction fuel as [|fuel IH]; intros ms r ms' tr H Hne Hnf; [discriminate|].
  rewrite while_loop_S in H |- *.
  pose proof (Length_extended ms extra) as Hlen.
  destruct (Z.ltb_spec (Position ms) (Length ms)) as [Hlt|Hge].
  - destruct (Z.ltb_spec (Position (extended ms extra))
                         (Length (extended ms extra))) as [_|Hge'];
      [|cbn [Position extended] in Hge'; lia].
    destruct (iteration ms) as [[[[|depth]|e] ms1] t] eqn:Eit.
    + rewrite (iteration_extended _ extra _ _ _ Eit) by discriminate.
      destruct (while_loop fuel ms1) as [[[r2 ms2] tr2]|] eqn:E2;
        [|discriminate].
      inversion H; subst.
      rewrite (IH _ _ _ _ E2 Hne Hnf). reflexivity.
    + rewrite (iteration_extended _ extra _ _ _ Eit) by discriminate.
      inversion H; subst. reflexivity.
    + inversion H; subst.
      rewrite (iteration_extended _ extra _ _ _ Eit) by congruence.
      reflexivity.
  - inversion H; subst. congruence.
Qed.

(** Bytes behind the point where the scan stops are not read: when the scan
    returns a bit depth, or throws the syntax-error exception, it does the
    same, by the same path, however the buffer goes on. *)
Theorem scan_ignores_what_follows :
  forall ms extra r ms' tr,
    scan ms = Some (r, ms', tr) ->
    r <> Exception EndOfStreamException ->
    r <> Exception NotFoundError ->
    scan (extended ms extra) = Some (r, extended ms' extra, tr).
Proof.
  intros ms extra r ms' tr H Hne Hnf.
  apply (while_loop_scan (iterations_bound ms)).
  apply while_loop_extended; assumption.
Qed.

Lemma scan_ignores_what_follows_witness :
  scan (extended (fresh [xff; xd8; xff; xc0; x00; x0b; x08])
                 [x00; x10; x00; x10; x01]) =
    Some (Value 8,
          extended (mkStream [xff; xd8; xff; xc0; x00; x0b; x08] 7)
                   [x00; x10; x00; x10; x01],
          [(0, [2]); (2, [4; 6; 7])]).
Proof.
  refine (scan_ignores_what_follows
            (fresh [xff; xd8; xff; xc0; x00; x0b; x08])
            [x00; x10; x00; x10; x01] _ _ _ eq_refl _ _); discriminate.
Defined.

(** ** Bytes the scan does not read: in front of the cursor *)

Lemma byte_at_shifted before ms i :
  0 <= i ->
  byte_at (shifted before ms) (Z.of_nat (length before) + i) = byte_at ms i.
Proof.
  intros Hi. unfold byte_at, shifted. cbn [buffer].
  destruct (Z.ltb_spec (Z.of_nat (length before) + i) 0); [lia|].
  destruct (Z.ltb_spec i 0); [lia|].
  rewrite nth_error_app2 by lia. f_equal. lia.
Qed.

Lemma byte_at_shifted_from before ms k :
  0 <= Position ms + k ->
  byte_at (shifted before ms) (Z.of_nat (length before) + Position ms + k)
  = byte_at ms (Position ms + k).
Proof.
  intros H. rewrite <- Z.add_assoc. now apply byte_at_shifted.
Qed.

Lemma Length_shifted before ms :
  Length (shifted before ms) = Z.of_nat (length before) + Length ms.
Proof. unfold Length, shifted. cbn [buffer]. rewrite length_app. lia. Qed.

(** Two cursors on the same buffer at equal positions. *)
Ltac same_shifted :=
  unfold shifted, shift_positions, exhausted, set_Position, Length;
  cbn [Position buffer map]; rewrite ?length_app;
  repeat first [ reflexivity | lia | progress f_equal ].

Lemma ReadUInt16_shifted before ms r ms1 t :
  0 <= Position ms ->
  ReadUInt16 ms = (r, ms1, t) ->
  ReadUInt16 (shifted before ms)
  = (r, shifted before ms1, shift_positions before t).
Proof.
  intros Hp. unfold ReadUInt16.
  change (Position (shifted before ms))
    with (Z.of_nat (length before) + Position ms).
  rewrite <- (Z.add_0_r (Z.of_nat (length before) + Position ms)) at 1.
  rewrite (byte_at_shifted_from before ms 0),
          (byte_at_shifted_from before ms 1) by lia.
  rewrite Z.add_0_r.
  destruct (byte_at ms (Position ms)) as [hi|];
    [destruct (byte_at ms (Position ms + 1)) as [lo|]|];
    intros H; inversion H; subst; same_shifted.
Qed.

Lemma run_return_precision_shifted before c r c' t :
  0 <= Position c ->
  run_return_precision c = (r, c', t) ->
  run_return_precision (shifted before c)
  = (r, shifted before c', shift_positions before t).
Proof.
  intros Hp. unfold run_return_precision.
  change (Position (shifted before c))
    with (Z.of_nat (length before) + Position c).
  rewrite (byte_at_shifted_from before c 2) by lia.
  destruct (byte_at c (Position c + 2));
    intros H; inversion H; subst; same_shifted.
Qed.

Lemma run_skip_segment_shifted before c r c' t :
  0 <= Position c ->
  run_skip_segment c = (r, c', t) ->
  run_skip_segment (shifted before c)
  = (r, shifted before c', shift_positions before t).
Proof.
  intros Hp. unfold run_skip_segment.
  change (Position (shifted before c))
    with (Z.of_nat (length before) + Position c).
  rewrite <- (Z.add_0_r (Z.of_nat (length before) + Position c)) at 1.
  rewrite (byte_at_shifted_from before c 0),
          (byte_at_shifted_from before c 1) by lia.
  rewrite Z.add_0_r.
  destruct (byte_at c (Position c)) as [hi|];
    [destruct (byte_at c (Position c + 1)) as [lo|]|];
    intros H; inversion H; subst; same_shifted.
Qed.

Lemma run_reserved_check_shifted before c r c' t :
  0 <= Position c ->
  run_reserved_check c = (r, c', t) ->
  run_reserved_check (shifted before c)
  = (r, shifted before c', shift_positions before t).
Proof.
  intros Hp. unfold run_reserved_check.
  change (Position (shifted before c))
    with (Z.of_nat (length before) + Position c).
  rewrite <- (Z.add_0_r (Z.of_nat (length before) + Position c)) at 1.
  rewrite (byte_at_shifted_from before c 0),
          (byte_at_shifted_from before c 1) by lia.
  rewrite Z.add_0_r.
  destruct (byte_at c (Position c)) as [b1|];
    [destruct (byte_at c (Position c + 1)) as [b2|]|];
    intros H; inversion H; subst; same_shifted.
Qed.

Lemma iteration_shifted before ms r ms' t :
  0 <= Position ms ->
  iteration ms = (r, ms', t) ->
  iteration (shifted before ms)
  = (r, shifted before ms', shift_positions before t).
Proof.
  intros Hp H.
  destruct (ReadUInt16 ms) as [[[marker|e0] ms1] t1] eqn:Hread.
  2: { pose proof (ReadUInt16_shifted before _ _ _ _ Hp Hread) as Hread'.
       unfold iteration, bind in H |- *. rewrite Hread in H. rewrite Hread'.
       inversion H; subst. reflexivity. }
  pose proof (ReadUInt16_shifted before _ _ _ _ Hp Hread) as Hread'.
  destruct (ReadUInt16_cursor _ _ _ _ Hread) as (-> & -> & _ & Hlen).
  rewrite (iteration_run _ _ _ _ Hread) in H.
  rewrite (iteration_run _ _ _ _ Hread').
  assert (Hp1 : 0 <= Position (set_Position ms (Position ms + 2)))
    by (cbn; lia).
  assert (Hp1' : 0 <= Position (shifted before
                                  (set_Position ms (Position ms + 2))))
    by (cbn; lia).
  destruct (category_of marker); unfold category_body in *.
  - rewrite return_precision_run in H |- * by assumption.
    destruct (run_return_precision (set_Position ms (Position ms + 2)))
      as [[r1 c1] t2] eqn:E.
    inversion H; subst.
    rewrite (run_return_precision_shifted before _ _ _ _ Hp1 E).
    reflexivity.
  - rewrite skip_segment_run in H |- * by assumption.
    destruct (run_skip_segment (set_Position ms (Position ms + 2)))
      as [[r1 c1] t2] eqn:E.
    inversion H; subst.
    rewrite (run_skip_segment_shifted before _ _ _ _ Hp1 E).
    reflexivity.
  - unfold ret in *. inversion H; subst. same_shifted.
  - rewrite reserved_check_run in H |- *.
    destruct (run_reserved_check (set_Position ms (Position ms + 2)))
      as [[r1 c1] t2] eqn:E.
    inversion H; subst.
    rewrite (run_reserved_check_shifted before _ _ _ _ Hp1 E).
    reflexivity.
Qed.

Lemma while_loop_shifted before fuel : forall ms r ms' tr,
  0 <= Position ms ->
  while_loop fuel ms = Some (r, ms', tr) ->
  while_loop fuel (shifted before ms)
  = Some (r, shifted before ms', shift_trace before tr).
Proof.
  induction fuel as [|fuel IH]; intros ms r ms' tr Hp H; [discriminate|].
  rewrite while_loop_S in H |- *.
  pose proof (Length_shifted before ms) as Hlen.
  change (Position (shifted before ms))
    with (Z.of_nat (length before) + Position ms) in *.
  destruct (Z.ltb_spec (Position ms) (Length ms)) as [Hlt|Hge].
  - destruct (Z.ltb_spec (Z.of_nat (length before) + Position ms)
                         (Length (shifted before ms))); [|lia].
    destruct (iteration ms) as [[[[|depth]|e] ms1] t] eqn:Eit;
      rewrite (iteration_shifted before _ _ _ _ Hp Eit).
    + destruct (while_loop fuel ms1) as [[[r2 ms2] tr2]|] eqn:E2;
        [|discriminate].
      inversion H; subst.
      pose proof (iteration_advances _ _ _ Eit) as Hadv.
      assert (Hp1 : 0 <= Position ms1) by lia.
      rewrite (IH _ _ _ _ Hp1 E2). reflexivity.
    + inversion H; subst. reflexivity.
    + inversion H; subst. reflexivity.
  - destruct (Z.ltb_spec (Z.of_nat (length before) + Position ms)
                         (Length (shifted before ms))); [lia|].
    inversion H; subst. reflexivity.
Qed.

Lemma scan_shifted before ms r ms' tr :
  0 <= Position ms ->
  scan ms = Some (r, ms', tr) ->
  scan (shifted before ms)
  = Some (r, shifted before ms', shift_trace before tr).
Proof.
  intros Hp H.
  apply (while_loop_scan (iterations_bound ms)).
  apply while_loop_shifted; assumption.
Qed.

(** The scan starts at the position the stream has, and bytes in front of
    that position are not read: with any bytes put in front of the buffer
    and the cursor moved by their number, the scan ends in the same way,
    every position larger by that number. *)
Theorem scan_ignores_what_precedes :
  forall before ms r ms' tr,
    0 <= Position ms ->
    scan ms = Some (r, ms', tr) ->
    scan (shifted before ms)
    = Some (r, shifted before ms', shift_trace before tr).
Proof.
  intros before ms r ms' tr. apply scan_shifted.
Qed.

Lemma scan_ignores_what_precedes_witness :
  scan (shifted [xff; xc0; x00; x0b; x10]
                (fresh [xff; xd8; xff; xc0; x00; x0b; x08])) =
    Some (Value 8,
          shifted [xff; xc0; x00; x0b; x10]
                  (mkStream [xff; xd8; xff; xc0; x00; x0b; x08] 7),
          shift_trace [xff; xc0; x00; x0b; x10] [(0, [2]); (2, [4; 6; 7])]).
Proof.
  refine (scan_ignores_what_precedes [xff; xc0; x00; x0b; x10]
            (fresh [xff; xd8; xff; xc0; x00; x0b; x08]) _ _ _ _ eq_refl).
  vm_compute. discriminate.
Defined.

(** ** A whole header in front of the frame header *)

(** Behind one well-formed item the loop is at the first byte behind the
    item, so the scan of the rest decides. *)
Lemma scan_behind_item item tail r ms' tr :
  well_formed_item item ->
  scan (fresh tail) = Some (r, ms', tr) ->
  exists t,
    scan (fresh (encode_item item ++ tail)) =
      Some (r, shifted (encode_item item) ms',
            (0, t) :: shift_trace (encode_item item) tr).
Proof.
  intros Hwf Hscan.
  pose proof (scan_shifted (encode_item item) (fresh tail) _ _ _
                (Z.le_refl 0) Hscan) as Hshift.
  destruct item as [m1 m2 | m1 m2 hi lo content]; cbn [well_formed_item] in Hwf.
  - exists [2].
    pose proof (iteration_zero_payload (fresh (encode_item (Bare m1 m2) ++ tail))
                  (big_endian m1 m2) _ _ eq_refl Hwf) as Hit.
    refine (scan_Break _ _ _ _ _ _ _ Hit Hshift).
    unfold Length. cbn [fresh buffer Position encode_item app length]. lia.
  - destruct Hwf as [Hin Hcontent].
    pose proof (big_endian_range hi lo) as HN.
    destruct (iteration_length_prefixed
                (fresh (encode_item (Segment m1 m2 hi lo content) ++ tail))
                (big_endian m1 m2) _ _ (big_endian hi lo) _ _
                eq_refl Hin eq_refl) as [_ Hit].
    exists [2; 4; 4 + (big_endian hi lo - 2)].
    assert (Hcur :
      set_Position (fresh (encode_item (Segment m1 m2 hi lo content) ++ tail))
        (Position (fresh (encode_item (Segment m1 m2 hi lo content) ++ tail))
         + 4 + (big_endian hi lo - 2))
      = shifted (encode_item (Segment m1 m2 hi lo content)) (fresh tail)).
    { unfold shifted, set_Position, fresh.
      cbn [buffer Position encode_item app length]. f_equal. lia. }
    rewrite Hcur in Hit.
    refine (scan_Break _ _ _ _ _ _ _ Hit Hshift).
    unfold Length. cbn [fresh buffer Position encode_item app length]. lia.
Qed.

Lemma shifted_shifted a b ms :
  shifted a (shifted b ms) = shifted (a ++ b) ms.
Proof.
  unfold shifted. cbn [buffer Position].
  rewrite app_assoc, length_app. f_equal. lia.
Qed.

(** Markers without payload and well-formed segments, in any number and
    order, in front of a Start-Of-Frame marker, two length bytes and a byte
    [P]: the scan takes one iteration for each of them and one for the frame
    header, returns [P], and leaves the cursor behind [P]. *)
Theorem header_then_SOF_returns_precision :
  forall items s1 s2 l1 l2 P rest,
    Forall well_formed_item items ->
    In (big_endian s1 s2) SOF_markers ->
    exists tr,
      scan (fresh (encode_header items ++ s1 :: s2 :: l1 :: l2 :: P :: rest))
      = Some (Value (byte_value P),
              shifted (encode_header items)
                      (mkStream (s1 :: s2 :: l1 :: l2 :: P :: rest) 5),
              tr) /\
      length tr = S (length items).
Proof.
  intros items s1 s2 l1 l2 P rest Hall Hsof.
  induction Hall as [|item items Hwf Hall IH].
  - exists [(0, [2; 4; 5])]. split; [|reflexivity].
    exact (scan_SOF (fresh (s1 :: s2 :: l1 :: l2 :: P :: rest))
             (big_endian s1 s2) _ _ P eq_refl Hsof eq_refl).
  - destruct IH as (tr & Hscan & Hlen).
    destruct (scan_behind_item item _ _ _ _ Hwf Hscan) as [t Ht].
    exists ((0, t) :: shift_trace (encode_item item) tr).
    cbn [encode_header flat_map]. fold (encode_header items).
    rewrite <- app_assoc, Ht, shifted_shifted.
    split; [reflexivity|].
    cbn [length]. unfold shift_trace. rewrite length_map. lia.
Qed.

Lemma header_then_SOF_returns_precision_witness :
  exists tr,
    scan (fresh (encode_header
                   [Bare xff xd8;
                    Segment xff xe0 x00 x04 [x4a; x46];
                    Segment xff xdb x00 x02 [];
                    Bare xff xd0]
                 ++ xff :: xc3 :: x00 :: x0b :: x0c :: [x00; x10]))
    = Some (Value (byte_value x0c),
            shifted (encode_header
                       [Bare xff xd8;
                        Segment xff xe0 x00 x04 [x4a; x46];
                        Segment xff xdb x00 x02 [];
                        Bare xff xd0])
                    (mkStream (xff :: xc3 :: x00 :: x0b :: x0c :: [x00; x10])
                              5),
            tr) /\
    length tr = 5%nat.
Proof.
  refine (header_then_SOF_returns_precision
            [Bare xff xd8; Segment xff xe0 x00 x04 [x4a; x46];
             Segment xff xdb x00 x02 []; Bare xff xd0]
            xff xc3 x00 x0b x0c [x00; x10] _ _).
  - repeat (apply Forall_cons;
            [ cbn [well_formed_item];
              first [ apply member_In; reflexivity
                    | split; [apply member_In; reflexivity | reflexivity] ]
            | ]).
    apply Forall_nil.
  - apply member_In. reflexivity.
Defined.
